(** * A model of [build.js], the model-site build script

    The script walks the [src] tree, picks for every model file the Concerto
    toolchain its version directive asks for, compiles the file, fans the
    compiled model out to a diagram, a syntax-tree dump and fourteen code
    generators (one zip archive each), renders a page, and finally writes a
    sorted index.  This file embeds the script's own logic -- the two
    directive expressions and the version-segment expression, the registry
    scan, the container set-up, the archive sink, the per-file control flow
    and the final sort -- as Rocq functions, with the libraries it calls
    (the Concerto bindings, [semver], [fs], [nunjucks], [adm-zip]) appearing
    as interfaces and oracles. *)

From Stdlib Require Import String Ascii.
From Stdlib Require Import List NArith ZArith Bool Arith Lia.
From Stdlib Require Import Permutation Sorted.
Import ListNotations.

Local Open Scope N_scope.
Local Open Scope list_scope.

(** ** JavaScript strings

    A JavaScript string is a sequence of UTF-16 code units. *)

Module JS.

Definition jsstring := list N.

(** The code units of an ASCII literal. *)
Definition str (s : string) : jsstring :=
  List.map N_of_ascii (list_ascii_of_string s).

Fixpoint eqb (a b : jsstring) : bool :=
  match a, b with
  | [], [] => true
  | x :: a', y :: b' => N.eqb x y && eqb a' b'
  | _, _ => false
  end.

(** [LineTerminator] of the language grammar: LF, CR, LS, PS. *)
Definition is_line_terminator (c : N) : bool :=
  N.eqb c 10 || N.eqb c 13 || N.eqb c 8232 || N.eqb c 8233.

(** [WhiteSpace] and [LineTerminator] together, the class [\s]. *)
Definition is_whitespace (c : N) : bool :=
  N.eqb c 9 || N.eqb c 11 || N.eqb c 12 || N.eqb c 32 || N.eqb c 160
  || N.eqb c 5760 || (N.leb 8192 c && N.leb c 8202) || N.eqb c 8239
  || N.eqb c 8287 || N.eqb c 12288 || N.eqb c 65279 || is_line_terminator c.

Definition is_digit (c : N) : bool := N.leb 48 c && N.leb c 57.

Definition dquote : N := 34.
Definition space : N := 32.
Definition at_sign : N := 64.
Definition slash : N := 47.
Definition dot : N := 46.

Fixpoint starts_with (p s : jsstring) : bool :=
  match p, s with
  | [], _ => true
  | x :: p', y :: s' => N.eqb x y && starts_with p' s'
  | _ :: _, [] => false
  end.

(** [s.replace(pat, rep)] with a string pattern: only the first occurrence
    of [pat] is replaced. *)
Fixpoint replace_first (pat rep s : jsstring) : jsstring :=
  if starts_with pat s then rep ++ skipn (length pat) s
  else match s with
       | [] => []
       | c :: s' => c :: replace_first pat rep s'
       end.

(** [s.split(sep)] for a one-unit separator: never an empty array. *)
Fixpoint split (sep : N) (s : jsstring) : list jsstring :=
  match s with
  | [] => [[]]
  | c :: s' =>
      if N.eqb c sep then [] :: split sep s'
      else match split sep s' with
           | [] => [[c]]
           | seg :: segs => (c :: seg) :: segs
           end
  end.

(** [a.pop()] as an expression: the last element, [undefined] on []. *)
Definition pop {A} (l : list A) : option A := List.last (List.map Some l) None.

(** [s.slice(0, -n)]. *)
Definition slice_to_minus (n : nat) (s : jsstring) : jsstring :=
  firstn (length s - n) s.

(** [s.slice(n)]. *)
Definition slice_from (n : nat) (s : jsstring) : jsstring := skipn n s.

End JS.
Export JS.

(** ** Regular expressions

    The three expressions of the script use literals, [.], [\d], greedy [*]
    and [+] over a single character class, one bounded group [{0,2}], one
    named group and the anchors [^] and [$] under the [m] flag.  The matcher
    is the backtracking one of the language: [run r st] lists the states in
    which [r] can end when started in [st], in the order backtracking tries
    them, so the match found is the head of the list. *)

Module Regex.

Inductive atom :=
| Lit (c : N)      (* a literal code unit *)
| Any              (* [.] : anything but a line terminator *)
| Dig.             (* [\d] *)

Inductive regex :=
| Atom (a : atom)
| Star (a : atom)          (* [a*], greedy *)
| Plus (a : atom)          (* [a+], greedy *)
| Seq (r1 r2 : regex)
| Upto2 (r : regex)        (* [(r){0,2}], greedy *)
| Named (r : regex)        (* [(?<versionRange>r)] *)
| Bol                      (* [^] with the m flag *)
| Eol                      (* [$] with the m flag *)
| Eps.

Definition atom_ok (a : atom) (c : N) : bool :=
  match a with
  | Lit d => N.eqb c d
  | Any => negb (is_line_terminator c)
  | Dig => is_digit c
  end.

(** A matcher state: the unit just before the position, the input left, and
    what the named group holds. *)
Record mstate := MState {
  prev : option N;
  rest : jsstring;
  group : option jsstring
}.

Fixpoint star (a : atom) (p : option N) (s : jsstring) (g : option jsstring)
  : list mstate :=
  match s with
  | c :: s' =>
      if atom_ok a c then star a (Some c) s' g ++ [MState p s g]
      else [MState p s g]
  | [] => [MState p s g]
  end.

Definition step (a : atom) (st : mstate) : list mstate :=
  match rest st with
  | c :: s' => if atom_ok a c then [MState (Some c) s' (group st)] else []
  | [] => []
  end.

Fixpoint run (r : regex) (st : mstate) : list mstate :=
  match r with
  | Atom a => step a st
  | Star a => star a (prev st) (rest st) (group st)
  | Plus a =>
      flat_map (fun st1 => star a (prev st1) (rest st1) (group st1)) (step a st)
  | Seq r1 r2 => flat_map (run r2) (run r1 st)
  | Upto2 r1 => flat_map (fun st1 => run r1 st1 ++ [st1]) (run r1 st) ++ [st]
  | Named r1 =>
      List.map
        (fun st' =>
           MState (prev st') (rest st')
             (Some (firstn (length (rest st) - length (rest st')) (rest st))))
        (run r1 st)
  | Bol =>
      match prev st with
      | None => [st]
      | Some c => if is_line_terminator c then [st] else []
      end
  | Eol =>
      match rest st with
      | [] => [st]
      | c :: _ => if is_line_terminator c then [st] else []
      end
  | Eps => [st]
  end.

(** A literal string. *)
Definition lits (s : jsstring) : regex :=
  fold_right (fun c r => Seq (Atom (Lit c)) r) Eps s.

(** The match attempt at one position. *)
Definition exec_at (r : regex) (p : option N) (s : jsstring) : option mstate :=
  hd_error (run r (MState p s None)).

(** The leftmost match at or after the position: where it starts (as the
    input left there) and the state in which it ends. *)
Fixpoint search (r : regex) (p : option N) (s : jsstring)
  : option (jsstring * mstate) :=
  match exec_at r p s with
  | Some st => Some (s, st)
  | None =>
      match s with
      | [] => None
      | c :: s' => search r (Some c) s'
      end
  end.

Definition matched (from : jsstring) (st : mstate) : jsstring :=
  firstn (length from - length (rest st)) from.

(** [s.match(r)] without the g flag: the end state of the first match. *)
Definition match_first (r : regex) (s : jsstring) : option mstate :=
  option_map snd (search r None s).

(** [s.match(r)] with the g flag: every match, left to right, each search
    starting where the previous match ended (one unit further after an empty
    match); [null] when there is none. *)
Fixpoint match_all_from (fuel : nat) (r : regex) (p : option N) (s : jsstring)
  : list jsstring :=
  match fuel with
  | O => []
  | S fuel' =>
      match search r p s with
      | None => []
      | Some (from, st) =>
          let m := matched from st in
          m :: match m with
               | [] => match rest st with
                       | [] => []
                       | c :: s' => match_all_from fuel' r (Some c) s'
                       end
               | _ :: _ => match_all_from fuel' r (prev st) (rest st)
               end
      end
  end.

Definition match_all (r : regex) (s : jsstring) : option (list jsstring) :=
  match match_all_from (S (length s)) r None s with
  | [] => None
  | l => Some l
  end.

End Regex.
Import Regex.

(** line 217, [commentRegex], flag m.  Token by token:
    [^]  [\/\/]  [.*]  [requires:]  [.*]  [concerto-core:]
    [(?<versionRange> .* )]  [$] *)
Definition commentRegex : regex :=
  Seq Bol
   (Seq (Atom (Lit slash))
   (Seq (Atom (Lit slash))
   (Seq (Star Any)
   (Seq (lits (str "requires:"))
   (Seq (Star Any)
   (Seq (lits (str "concerto-core:"))
   (Seq (Named (Star Any)) Eol))))))).

(** line 218, [declarationRegex], flag m.  Token by token, Q standing for the
    escaped double quote of the source:
    [^]  [concerto version ]  [Q]  [(?<versionRange> .* )]  [Q]  [$] *)
Definition declarationRegex : regex :=
  Seq Bol
   (Seq (lits (str "concerto version "))
   (Seq (Atom (Lit dquote))
   (Seq (Named (Star Any))
   (Seq (Atom (Lit dquote)) Eol)))).

(** line 288, flag g.  Token by token:
    [v]  [\d+]  [( \. \d+ ){0,2}] *)
Definition versionSegmentRegex : regex :=
  Seq (Atom (Lit 118))
   (Seq (Plus Dig)
        (Upto2 (Seq (Atom (Lit dot)) (Plus Dig)))).

(** ** The [semver] library

    The script calls [semver.satisfies], [semver.lte] and [semver.valid].
    They are a library's, so the script is modelled over their interface:
    [satisfies] never throws (an invalid version or range gives [false]),
    [lte] throws on an invalid version, [valid] gives the normalised version
    or [null]. *)

Class Semver := {
  satisfies : jsstring -> jsstring -> bool;
  lte : jsstring -> jsstring -> option bool;
  valid : jsstring -> option jsstring
}.

(** A reference model of the library (strict mode, no options), used for the
    worked examples.  Versions are [v?M.m.p(-pre)?(+build)?]; a range is a
    [||]-list of space-separated comparators, each an optional operator
    ([<], [<=], [>], [>=], [=], [^], [~], [~>]) before a full or partial
    version ([1.2.3], [1.2], [1.x], [*]), or one hyphen range [A - B].
    Anything else is an invalid range. *)

Module NodeSemver.

Inductive ident := INum (n : N) | IAlpha (s : jsstring).

Record version := Version {
  major : N; minor : N; patch : N;
  prerelease : list ident
}.

Definition all_digits (s : jsstring) : bool :=
  match s with [] => false | _ => forallb is_digit s end.

Definition dec_value (s : jsstring) : N :=
  fold_left (fun acc c => acc * 10 + (c - 48)) s 0.

Definition MAX_SAFE_INTEGER : N := 9007199254740991.

(** [0|[1-9]\d*], within the safe integers. *)
Definition numeric_id (s : jsstring) : option N :=
  match s with
  | [] => None
  | c :: s' =>
      if all_digits s && (negb (N.eqb c 48) || match s' with [] => true | _ => false end)
         && N.leb (dec_value s) MAX_SAFE_INTEGER
      then Some (dec_value s) else None
  end.

Definition is_id_char (c : N) : bool :=
  is_digit c || (N.leb 65 c && N.leb c 90) || (N.leb 97 c && N.leb c 122)
  || N.eqb c 45.

Definition prerelease_id (s : jsstring) : option ident :=
  if all_digits s then option_map INum (numeric_id s)
  else match s with
       | [] => None
       | _ => if forallb is_id_char s then Some (IAlpha s) else None
       end.

Definition build_id_ok (s : jsstring) : bool :=
  match s with [] => false | _ => forallb is_id_char s end.

Fixpoint all_some {A} (l : list (option A)) : option (list A) :=
  match l with
  | [] => Some []
  | Some a :: l' => option_map (cons a) (all_some l')
  | None :: _ => None
  end.

(** The input up to the first [c], and what follows it. *)
Fixpoint cut (c : N) (s : jsstring) : jsstring * option jsstring :=
  match s with
  | [] => ([], None)
  | d :: s' =>
      if N.eqb d c then ([], Some s')
      else let '(a, b) := cut c s' in (d :: a, b)
  end.

Fixpoint drop_ws (s : jsstring) : jsstring :=
  match s with
  | c :: s' => if is_whitespace c then drop_ws s' else s
  | [] => []
  end.

Definition trim (s : jsstring) : jsstring :=
  rev (drop_ws (rev (drop_ws s))).

Definition strip_v (s : jsstring) : jsstring :=
  match s with
  | 118 :: s' => s'
  | _ => s
  end.

(** The tail of a version: [-pre] and [+build], either optional. *)
Definition parse_tail (pre : option jsstring) (build : option jsstring)
  : option (list ident) :=
  let build_ok :=
    match build with
    | None => true
    | Some b => forallb build_id_ok (split dot b)
    end in
  if build_ok then
    match pre with
    | None => Some []
    | Some p => all_some (List.map prerelease_id (split dot p))
    end
  else None.

(** [new SemVer(s)]: [None] where the library throws. *)
Definition parse (s : jsstring) : option version :=
  let '(core, build) := cut 43 (strip_v (trim s)) in
  let '(main, pre) := cut 45 core in
  match List.map numeric_id (split dot main), parse_tail pre build with
  | [Some M; Some m; Some p], Some ids => Some (Version M m p ids)
  | _, _ => None
  end.

Fixpoint compare_str (a b : jsstring) : comparison :=
  match a, b with
  | [], [] => Eq
  | [], _ :: _ => Lt
  | _ :: _, [] => Gt
  | x :: a', y :: b' =>
      match N.compare x y with
      | Eq => compare_str a' b'
      | c => c
      end
  end.

Definition compare_ident (a b : ident) : comparison :=
  match a, b with
  | INum x, INum y => N.compare x y
  | INum _, IAlpha _ => Lt
  | IAlpha _, INum _ => Gt
  | IAlpha x, IAlpha y => compare_str x y
  end.

Fixpoint compare_ids (a b : list ident) : comparison :=
  match a, b with
  | [], [] => Eq
  | [], _ :: _ => Lt
  | _ :: _, [] => Gt
  | x :: a', y :: b' =>
      match compare_ident x y with
      | Eq => compare_ids a' b'
      | c => c
      end
  end.

Definition compare_pre (a b : list ident) : comparison :=
  match a, b with
  | [], [] => Eq
  | _ :: _, [] => Lt
  | [], _ :: _ => Gt
  | _, _ => compare_ids a b
  end.

Definition compare_main (a b : version) : comparison :=
  match N.compare (major a) (major b) with
  | Eq => match N.compare (minor a) (minor b) with
          | Eq => N.compare (patch a) (patch b)
          | c => c
          end
  | c => c
  end.

Definition compare (a b : version) : comparison :=
  match compare_main a b with
  | Eq => compare_pre (prerelease a) (prerelease b)
  | c => c
  end.

Inductive cmpop := OpEq | OpLt | OpLe | OpGt | OpGe.

Inductive comparator := CAny | CCmp (op : cmpop) (v : version).

Definition cmp (op : cmpop) (a b : version) : bool :=
  match op, compare a b with
  | OpEq, Eq => true
  | OpLt, Lt => true
  | OpLe, (Lt | Eq) => true
  | OpGt, Gt => true
  | OpGe, (Gt | Eq) => true
  | _, _ => false
  end.

Definition test_comparator (c : comparator) (v : version) : bool :=
  match c with
  | CAny => true
  | CCmp op w => cmp op v w
  end.

(** A prerelease version satisfies a comparator set only if some comparator
    of the set names a prerelease of the same [M.m.p]. *)
Definition allows_prerelease (c : comparator) (v : version) : bool :=
  match c with
  | CAny => false
  | CCmp _ w =>
      match prerelease w with
      | [] => false
      | _ :: _ => N.eqb (major w) (major v) && N.eqb (minor w) (minor v)
                  && N.eqb (patch w) (patch v)
      end
  end.

Definition test_set (set : list comparator) (v : version) : bool :=
  forallb (fun c => test_comparator c v) set
  && match prerelease v with
     | [] => true
     | _ :: _ => existsb (fun c => allows_prerelease c v) set
     end.

(** A partial version: each of the three places a number or a wildcard
    ([x], [X], [*] or left out). *)
Record partial := Partial {
  pM : option N; pm : option N; pp : option N;
  ppre : list ident
}.

Definition xrange_id (s : jsstring) : option (option N) :=
  match s with
  | [120] | [88] | [42] => Some None
  | _ => option_map Some (numeric_id s)
  end.

Definition parse_partial (s : jsstring) : option partial :=
  let '(core, build) := cut 43 (strip_v s) in
  let '(main, pre) := cut 45 core in
  match List.map xrange_id (split dot main) with
  | [Some M; Some m; Some p] =>
      match parse_tail pre build with
      | Some ids => Some (Partial M m p ids)
      | None => None
      end
  | [Some M; Some m] =>
      match pre, build with
      | None, None => Some (Partial M m None [])
      | _, _ => None
      end
  | [Some M] =>
      match pre, build with
      | None, None => Some (Partial M None None [])
      | _, _ => None
      end
  | _ => None
  end.

Definition ge (M m p : N) (pre : list ident) := CCmp OpGe (Version M m p pre).
Definition lt0 (M m p : N) := CCmp OpLt (Version M m p [INum 0]).

(** [^partial] *)
Definition caret (q : partial) : list comparator :=
  match pM q, pm q, pp q with
  | None, _, _ => [CAny]
  | Some M, None, _ => [ge M 0 0 []; lt0 (M + 1) 0 0]
  | Some M, Some m, None =>
      if N.eqb M 0 then [ge M m 0 []; lt0 M (m + 1) 0]
      else [ge M m 0 []; lt0 (M + 1) 0 0]
  | Some M, Some m, Some p =>
      if N.eqb M 0 then
        if N.eqb m 0 then [ge M m p (ppre q); lt0 M m (p + 1)]
        else [ge M m p (ppre q); lt0 M (m + 1) 0]
      else [ge M m p (ppre q); lt0 (M + 1) 0 0]
  end.

(** [~partial] *)
Definition tilde (q : partial) : list comparator :=
  match pM q, pm q, pp q with
  | None, _, _ => [CAny]
  | Some M, None, _ => [ge M 0 0 []; lt0 (M + 1) 0 0]
  | Some M, Some m, None => [ge M m 0 []; lt0 M (m + 1) 0]
  | Some M, Some m, Some p => [ge M m p (ppre q); lt0 M (m + 1) 0]
  end.

Inductive gtlt := GNone | GEq | GLt | GLe | GGt | GGe.

Definition nothing : comparator := lt0 0 0 0.

(** An optional operator before a partial version. *)
Definition xrange (g : gtlt) (q : partial) : list comparator :=
  match pM q, pm q, pp q with
  | None, _, _ =>
      match g with
      | GLt | GGt => [nothing]
      | _ => [CAny]
      end
  | Some M, Some m, Some p =>
      let v := Version M m p (ppre q) in
      match g with
      | GNone | GEq => [CCmp OpEq v]
      | GLt => [CCmp OpLt v]
      | GLe => [CCmp OpLe v]
      | GGt => [CCmp OpGt v]
      | GGe => [CCmp OpGe v]
      end
  | Some M, None, _ =>
      match g with
      | GNone | GEq => [ge M 0 0 []; lt0 (M + 1) 0 0]
      | GGt => [ge (M + 1) 0 0 []]
      | GGe => [ge M 0 0 []]
      | GLe => [lt0 (M + 1) 0 0]
      | GLt => [lt0 M 0 0]
      end
  | Some M, Some m, None =>
      match g with
      | GNone | GEq => [ge M m 0 []; lt0 M (m + 1) 0]
      | GGt => [ge M (m + 1) 0 []]
      | GGe => [ge M m 0 []]
      | GLe => [lt0 M (m + 1) 0]
      | GLt => [lt0 M m 0]
      end
  end.

(** [A - B] *)
Definition hyphen (a b : partial) : list comparator :=
  (match pM a, pm a, pp a with
   | None, _, _ => []
   | Some M, None, _ => [ge M 0 0 []]
   | Some M, Some m, None => [ge M m 0 []]
   | Some M, Some m, Some p => [ge M m p (ppre a)]
   end)
  ++
  (match pM b, pm b, pp b with
   | None, _, _ => []
   | Some M, None, _ => [lt0 (M + 1) 0 0]
   | Some M, Some m, None => [lt0 M (m + 1) 0]
   | Some M, Some m, Some p => [CCmp OpLe (Version M m p (ppre b))]
   end).

(** The whitespace-separated words of a string. *)
Fixpoint words_aux (s : jsstring) (cur : jsstring) : list jsstring :=
  match s with
  | [] => match cur with [] => [] | _ => [rev cur] end
  | c :: s' =>
      if is_whitespace c
      then match cur with
           | [] => words_aux s' []
           | _ => rev cur :: words_aux s' []
           end
      else words_aux s' (c :: cur)
  end.

Definition words (s : jsstring) : list jsstring := words_aux s [].

Definition is_operator (w : jsstring) : bool :=
  existsb (JS.eqb w)
    [str "<"; str "<="; str ">"; str ">="; str "="; str "^"; str "~"; str "~>"].

(** An operator standing alone is joined to the word after it. *)
Fixpoint join_operators (ws : list jsstring) : list jsstring :=
  match ws with
  | w :: ((w' :: ws'') as ws') =>
      if is_operator w then (w ++ w') :: join_operators ws''
      else w :: join_operators ws'
  | _ => ws
  end.

Definition parse_comparator (w : jsstring) : option (list comparator) :=
  match w with
  | 94 :: q => option_map caret (parse_partial q)
  | 126 :: 62 :: q => option_map tilde (parse_partial q)
  | 126 :: q => option_map tilde (parse_partial q)
  | 60 :: 61 :: q => option_map (xrange GLe) (parse_partial q)
  | 62 :: 61 :: q => option_map (xrange GGe) (parse_partial q)
  | 60 :: q => option_map (xrange GLt) (parse_partial q)
  | 62 :: q => option_map (xrange GGt) (parse_partial q)
  | 61 :: q => option_map (xrange GEq) (parse_partial q)
  | q => option_map (xrange GNone) (parse_partial q)
  end.

Definition parse_set (s : jsstring) : option (list comparator) :=
  match words s with
  | [] => Some [CAny]
  | [a; [45]; b] =>
      match parse_partial a, parse_partial b with
      | Some qa, Some qb => Some (hyphen qa qb)
      | _, _ => None
      end
  | ws => option_map (@List.concat _)
            (all_some (List.map parse_comparator (join_operators ws)))
  end.

(** The alternatives of a range, split at [||]. *)
Fixpoint alternatives (s : jsstring) (cur : jsstring) : list jsstring :=
  match s with
  | 124 :: 124 :: s' => rev cur :: alternatives s' []
  | c :: s' => alternatives s' (c :: cur)
  | [] => [rev cur]
  end.

(** [new Range(s)]: [None] where the library throws. *)
Definition parse_range (s : jsstring) : option (list (list comparator)) :=
  all_some (List.map parse_set (alternatives s [])).

Definition node_satisfies (v r : jsstring) : bool :=
  match parse_range r, parse v with
  | Some sets, Some ver => existsb (fun set => test_set set ver) sets
  | _, _ => false
  end.

Definition node_lte (a b : jsstring) : option bool :=
  match parse a, parse b with
  | Some x, Some y =>
      Some (match compare x y with Gt => false | _ => true end)
  | _, _ => None
  end.

Fixpoint uint_units (d : Decimal.uint) : jsstring :=
  match d with
  | Decimal.Nil => []
  | Decimal.D0 d' => 48 :: uint_units d'
  | Decimal.D1 d' => 49 :: uint_units d'
  | Decimal.D2 d' => 50 :: uint_units d'
  | Decimal.D3 d' => 51 :: uint_units d'
  | Decimal.D4 d' => 52 :: uint_units d'
  | Decimal.D5 d' => 53 :: uint_units d'
  | Decimal.D6 d' => 54 :: uint_units d'
  | Decimal.D7 d' => 55 :: uint_units d'
  | Decimal.D8 d' => 56 :: uint_units d'
  | Decimal.D9 d' => 57 :: uint_units d'
  end.

Definition format_N (n : N) : jsstring := uint_units (N.to_uint n).

Definition format_ident (i : ident) : jsstring :=
  match i with
  | INum n => format_N n
  | IAlpha s => s
  end.

Fixpoint join_dot (l : list jsstring) : jsstring :=
  match l with
  | [] => []
  | [x] => x
  | x :: l' => x ++ dot :: join_dot l'
  end.

(** [version.version]: the normalised text. *)
Definition format (v : version) : jsstring :=
  format_N (major v) ++ dot :: format_N (minor v) ++ dot :: format_N (patch v)
  ++ match prerelease v with
     | [] => []
     | ids => 45 :: join_dot (List.map format_ident ids)
     end.

Definition node_valid (s : jsstring) : option jsstring :=
  option_map format (parse s).

End NodeSemver.

#[export] Instance node_semver : Semver := {|
  satisfies := NodeSemver.node_satisfies;
  lte := NodeSemver.node_lte;
  valid := NodeSemver.node_valid
|}.

(** ** Results, exceptions and the toolchain bindings *)

(** A value thrown.  JavaScript throws any value, and what matters of one
    is what the script's catch clauses do with it: they put [err.message]
    into a template (lines 156, 178 and 199), hand [err.message] to
    [console.log] (line 345) and hand the value itself to [console.log]
    (line 346).  Each of the three can throw in its turn -- reading
    [message] of [null] or of [undefined] is a [TypeError], a getter or a
    conversion to a string can throw anything -- so a thrown value is taken
    by what each of them gives: the text, or the value thrown instead. *)
#[warnings="-register-all"] Inductive exn := MkExn {
  in_template : jsstring + exn;     (* [err.message] inside a template *)
  message_logged : jsstring + exn;  (* [console.log(err.message)] *)
  shown : option exn                (* [console.log(err)]: what it throws *)
}.

(** [new Error(message)], and every error the engine and the libraries
    throw: the message reads as it is, and the error can be shown. *)
Definition Error (message : jsstring) : exn :=
  MkExn (inl message) (inl message) None.

Inductive result (A : Type) :=
| Ok (a : A)
| Throw (e : exn).
Arguments Ok {A} a.
Arguments Throw {A} e.

(** The [TypeError] the engine throws on a member access or a call that
    has no target. *)
Definition TypeError : exn := Error (str "TypeError").

(** [null] and [undefined] as values thrown: [err.message] is a member
    access without a target; [console.log] shows them. *)
Definition nullish : exn := MkExn (inr TypeError) (inr TypeError) None.

(** A model container ([ModelManager]) as the script can tell containers
    apart: its strict flag and the names of the model files added to it. *)
Record ModelManagerObj := MkModelManager {
  mm_strict : bool;
  mm_files : list jsstring
}.

(** A compiled model ([ModelFile]); [mf_manager] is the reference to the
    container it was constructed with. *)
Record ModelFile := MkModelFile {
  mf_namespace : jsstring;      (* getNamespace() *)
  mf_name : jsstring;           (* getName() *)
  mf_definitions : jsstring;    (* getDefinitions() *)
  mf_manager : nat              (* getModelManager() *)
}.

(** What a visitor does to the file writer it is handed while the container
    or the model accepts it. *)
Inductive sinkOp :=
| OpenFile (fileName : jsstring)
| WriteLine (tabs : nat) (text : jsstring)
| CloseFile
| Raise (e : exn).

(** The three shapes of [addModelFile] in the script (lines 259, 296, 299). *)
Inductive addCall :=
| AddSystemModel (text name : jsstring)
| AddLegacy (m : ModelFile) (name : jsstring)
| AddCurrent (m : ModelFile) (text name : jsstring).

Definition addCall_name (c : addCall) : jsstring :=
  match c with
  | AddSystemModel _ n => n
  | AddLegacy _ n => n
  | AddCurrent _ _ n => n
  end.

(** One version of the Concerto library, as [concertoVersions.js] exports
    it.  Its classes are the library's: what they do is taken as given, one
    function per operation the script uses. *)
Record Binding := MkBinding {
  concertoVersion : jsstring;
  (* Parser.parse(text, file): the syntax tree, serialised *)
  Parser_parse : jsstring -> jsstring -> result jsstring;
  (* new ModelFile(manager, text, file): namespace and name *)
  ModelFile_text :
    ModelManagerObj -> jsstring -> jsstring -> result (jsstring * jsstring);
  (* new ModelFile(manager, ast, text, file) *)
  ModelFile_ast :
    ModelManagerObj -> jsstring -> jsstring -> jsstring
    -> result (jsstring * jsstring);
  (* manager.addModelFile(...): None when the model is accepted *)
  addModelFile : ModelManagerObj -> addCall -> option exn;
  (* manager.updateExternalModels() *)
  updateExternalModels : ModelManagerObj -> option exn;
  (* CodeGen[visitorName]: the traversal manager.accept(visitor) drives *)
  CodeGen : jsstring -> option (ModelManagerObj -> list sinkOp);
  (* the diagram text modelFile.accept(new PlantUMLVisitor()) writes *)
  plantUML : ModelFile -> result jsstring;
  (* the syntax tree of generateJsonAst, as JSON *)
  jsonAst : ModelManagerObj -> ModelFile -> result jsstring
}.

(** A value held by the registry object. *)
Inductive jsval :=
| VUndefined
| VString (s : jsstring)
| VBinding (b : Binding).

(** The registry: the own properties of the object [concertoVersions.js]
    exports, in the order [Object.entries] lists them (for keys that are not
    array indices, insertion order). *)
Definition registry := list (jsstring * jsval).

Fixpoint get (o : registry) (key : jsstring) : jsval :=
  match o with
  | [] => VUndefined
  | (k, v) :: o' => if JS.eqb k key then v else get o' key
  end.

(** [ToPropertyKey] for the values at hand. *)
Definition to_key (v : jsval) : jsstring :=
  match v with
  | VUndefined => str "undefined"
  | VString s => s
  | VBinding _ => str "[object Object]"
  end.

(** ** [findCompatibleVersion] (lines 214-227) *)

Section VersionResolver.
Context `{Semver}.

(** line 19 *)
Definition DEFAULT_CONCERTO_VERSION (concertoVersions : registry) : jsval :=
  get concertoVersions (str "defaultVersion").

(** lines 219 and 221: the range the registry is tested against, [null]
    without a directive.  Reading [groups.versionRange] of a match whose
    group did not take part would throw. *)
Definition versionRange (modelText : jsstring) : result (option jsstring) :=
  let match_ :=
    match match_first declarationRegex modelText with
    | Some m => Some m
    | None => match_first commentRegex modelText
    end in
  match match_ with
  | Some m =>
      match group m with
      | Some g => Ok (Some (replace_first [space] [] g))
      | None => Throw TypeError
      end
  | None => Ok None
  end.

(** line 223: [versionRange && semver.satisfies(version, versionRange)] as a
    condition; the empty string is falsy. *)
Definition entry_matches (versionRange : option jsstring)
  (entry : jsstring * jsval) : bool :=
  match versionRange with
  | Some ((_ :: _) as r) => satisfies (fst entry) r
  | _ => false
  end.

Definition findCompatibleVersion (concertoVersions : registry)
  (modelText : jsstring) : result jsval :=
  let defaultConcertoVersion :=
    get concertoVersions (to_key (DEFAULT_CONCERTO_VERSION concertoVersions)) in
  match versionRange modelText with
  | Throw e => Throw e
  | Ok range =>
      match find (entry_matches range) concertoVersions with
      | Some foundConcertoVersion => Ok (snd foundConcertoVersion)
      | None => Ok defaultConcertoVersion
      end
  end.

End VersionResolver.

(** ** Paths (the [path] module on normalised absolute POSIX paths, as
    [getFiles] produces them with [resolve]) *)

Fixpoint join_slash (segs : list jsstring) : jsstring :=
  match segs with
  | [] => []
  | [x] => x
  | x :: segs' => x ++ slash :: join_slash segs'
  end.

Definition basename (p : jsstring) : jsstring :=
  match pop (split slash p) with
  | Some b => b
  | None => []
  end.

Definition dirname (p : jsstring) : jsstring :=
  match removelast (split slash p) with
  | [] => str "."
  | [[]] => str "/"
  | segs => join_slash segs
  end.

(** The index of the last [c] of the string. *)
Fixpoint last_index_from (c : N) (s : jsstring) (i : nat) (found : option nat)
  : option nat :=
  match s with
  | [] => found
  | d :: s' =>
      last_index_from c s' (S i) (if N.eqb d c then Some i else found)
  end.

(** [path.parse(base).name] *)
Definition parse_name (base : jsstring) : jsstring :=
  if JS.eqb base (str "..") then base
  else match last_index_from dot base 0 None with
       | Some (S i) => firstn (S i) base
       | _ => base
       end.

(** ** The code generators (lines 50-121) *)

Record generatorSpec := MkGenerator {
  visitor : jsstring;
  ext : jsstring;
  name : jsstring
}.

Definition CODE_GENERATORS : list generatorSpec :=
  [ MkGenerator (str "PlantUMLVisitor") (str "puml") (str "PlantUML");
    MkGenerator (str "XmlSchemaVisitor") (str "xsd") (str "XML Schema");
    MkGenerator (str "TypescriptVisitor") (str "ts") (str "Typescript");
    MkGenerator (str "CSharpVisitor") (str "cs") (str "C#");
    MkGenerator (str "ODataVisitor") (str "csdl") (str "OData");
    MkGenerator (str "JSONSchemaVisitor") (str "json") (str "JSON Schema");
    MkGenerator (str "GraphQLVisitor") (str "gql") (str "GraphQL");
    MkGenerator (str "JavaVisitor") (str "java") (str "Java");
    MkGenerator (str "GoLangVisitor") (str "go") (str "Go");
    MkGenerator (str "AvroVisitor") (str "avdl") (str "Avro");
    MkGenerator (str "MarkdownVisitor") (str "md") (str "Markdown");
    MkGenerator (str "OpenAPIVisitor") (str "openapi") (str "OpenAPI");
    MkGenerator (str "ProtobufVisitor") (str "proto") (str "Protobuf");
    MkGenerator (str "MermaidVisitor") (str "mmd") (str "Mermaid") ].

(** ** The world the script acts on *)

Record zipEntry := MkEntry {
  entryName : jsstring;
  data : list N;              (* bytes *)
  comment : jsstring
}.

Inductive fileData :=
| Text (s : jsstring)
| Zip (entries : list zipEntry)
| CopyOf (source : jsstring).

Record IndexEntry := MkIndexEntry {
  htmlFile : jsstring;
  modelFile : ModelFile;
  modelVersion : jsstring
}.

Inductive logLine :=
| LogProcessing (namespace version : jsstring)              (* line 274 *)
| LogProcessed (namespace version : jsstring)               (* line 332 *)
| LogErrorHandling (file : jsstring)                        (* line 344 *)
| LogErrorMessage (message : jsstring)                      (* line 345 *)
| LogError (err : exn)                                      (* line 346 *)
| LogGenerating (what destPath fileNameNoExt message : jsstring).
                                                    (* lines 156, 178, 199 *)

Record World := MkWorld {
  w_managers : list ModelManagerObj;  (* the containers constructed so far *)
  w_disk : list (jsstring * fileData);(* files written, the latest first *)
  w_dirs : list jsstring;             (* directories ensured *)
  w_log : list logLine;               (* console output, the latest first *)
  w_index : list IndexEntry           (* modelFileIndex *)
}.

Definition initial_world : World := MkWorld [] [] [] [] [].

(** What a path holds: its latest write. *)
Fixpoint read_disk (disk : list (jsstring * fileData)) (path : jsstring)
  : option fileData :=
  match disk with
  | [] => None
  | (p, d) :: disk' => if JS.eqb p path then Some d else read_disk disk' path
  end.

(** Computations of the script: they act on the world and return or throw.
    The script is sequential (every step is awaited in place), so is this. *)
Definition M (A : Type) := World -> result A * World.

Definition ret {A} (a : A) : M A := fun w => (Ok a, w).

Definition bind {A B} (c : M A) (k : A -> M B) : M B :=
  fun w =>
    match c w with
    | (Ok a, w') => k a w'
    | (Throw e, w') => (Throw e, w')
    end.

Definition throw {A} (e : exn) : M A := fun w => (Throw e, w).

Definition lift {A} (r : result A) : M A := fun w => (r, w).

Definition lift_void (r : option exn) : M unit :=
  fun w => match r with None => (Ok tt, w) | Some e => (Throw e, w) end.

Definition try_catch {A} (c : M A) (handler : exn -> M A) : M A :=
  fun w =>
    match c w with
    | (Ok a, w') => (Ok a, w')
    | (Throw e, w') => handler e w'
    end.

(** The text a use of [err.message] gives, where it gives one; it throws
    where the use does. *)
Definition message_text (use : jsstring + exn) : M jsstring :=
  fun w =>
    match use with
    | inl message => (Ok message, w)
    | inr e => (Throw e, w)
    end.

Declare Scope js_scope.
Delimit Scope js_scope with js.
Notation "x <- c ;; k" := (bind c (fun x => k))
  (at level 61, c at next level, right associativity) : js_scope.
Notation "c ;; k" := (bind c (fun _ => k))
  (at level 61, right associativity) : js_scope.
Local Open Scope js_scope.

Definition console_log (l : logLine) : M unit :=
  fun w => (Ok tt, MkWorld (w_managers w) (w_disk w) (w_dirs w)
                           (l :: w_log w) (w_index w)).

Definition write_disk (path : jsstring) (d : fileData) : M unit :=
  fun w => (Ok tt, MkWorld (w_managers w) ((path, d) :: w_disk w) (w_dirs w)
                           (w_log w) (w_index w)).

Definition make_dir (path : jsstring) : M unit :=
  fun w => (Ok tt, MkWorld (w_managers w) (w_disk w) (path :: w_dirs w)
                           (w_log w) (w_index w)).

Definition push_index (e : IndexEntry) : M unit :=
  fun w => (Ok tt, MkWorld (w_managers w) (w_disk w) (w_dirs w) (w_log w)
                           (w_index w ++ [e])).

(** [new thisConcerto.ModelManager(options)]: a fresh container; the
    reference is its place among the containers. *)
Definition new_ModelManager (strict : bool) : M nat :=
  fun w => (Ok (List.length (w_managers w)),
            MkWorld (w_managers w ++ [MkModelManager strict []]) (w_disk w)
                    (w_dirs w) (w_log w) (w_index w)).

Definition empty_manager : ModelManagerObj := MkModelManager false [].

Definition deref (r : nat) : M ModelManagerObj :=
  fun w => (Ok (nth r (w_managers w) empty_manager), w).

Fixpoint update_nth {A} (n : nat) (f : A -> A) (l : list A) : list A :=
  match l, n with
  | [], _ => []
  | x :: l', O => f x :: l'
  | x :: l', S n' => x :: update_nth n' f l'
  end.

(** [manager.addModelFile(...)]: the library validates, and on success the
    container holds one more file. *)
Definition do_addModelFile (b : Binding) (r : nat) (call : addCall) : M unit :=
  mm <- deref r ;;
  lift_void (addModelFile b mm call) ;;
  fun w =>
    (Ok tt,
     MkWorld
       (update_nth r
          (fun m => MkModelManager (mm_strict m)
                      (mm_files m ++ [addCall_name call]))
          (w_managers w))
       (w_disk w) (w_dirs w) (w_log w) (w_index w)).

(** ** The archive sink and [generate] (lines 123-158) *)

(** [Buffer.alloc(size, fill)] for a string [fill]: [size] bytes of its
    UTF-8 encoding.  (The encoding is repeated when it is too short, which
    it never is at line 141, where [size] is the string's own length.) *)
Definition is_high_surrogate (c : N) : bool := N.leb 55296 c && N.leb c 56319.
Definition is_low_surrogate (c : N) : bool := N.leb 56320 c && N.leb c 57343.

Definition utf8_3 (c : N) : list N :=
  [224 + c / 4096; 128 + (c / 64) mod 64; 128 + c mod 64].

Definition utf8_4 (c : N) : list N :=
  [240 + c / 262144; 128 + (c / 4096) mod 64; 128 + (c / 64) mod 64;
   128 + c mod 64].

Fixpoint utf8_encode (s : jsstring) : list N :=
  match s with
  | [] => []
  | c :: s' =>
      if N.ltb c 128 then c :: utf8_encode s'
      else if N.ltb c 2048 then 192 + c / 64 :: 128 + c mod 64 :: utf8_encode s'
      else if is_high_surrogate c then
        match s' with
        | d :: s'' =>
            if is_low_surrogate d
            then utf8_4 (65536 + (c - 55296) * 1024 + (d - 56320))
                 ++ utf8_encode s''
            else utf8_3 65533 ++ utf8_encode s'
        | [] => utf8_3 65533
        end
      else if is_low_surrogate c then utf8_3 65533 ++ utf8_encode s'
      else utf8_3 c ++ utf8_encode s'
  end.

Definition Buffer_alloc (size : nat) (fill : jsstring) : list N :=
  firstn size (utf8_encode fill).

(** [zip.addFile(name, data, comment)]: a new entry, or new data for the
    entry of that name. *)
Fixpoint zip_addFile (zip : list zipEntry) (e : zipEntry) : list zipEntry :=
  match zip with
  | [] => [e]
  | x :: zip' =>
      if JS.eqb (entryName x) (entryName e) then e :: zip'
      else x :: zip_addFile zip' e
  end.

(** The file writer of the toolchain: the unit that is open and the text
    written to it so far. *)
Record FileWriter := MkFileWriter {
  fileName : option jsstring;
  buffer : jsstring
}.

Definition truthy (s : option jsstring) : bool :=
  match s with
  | Some (_ :: _) => true
  | _ => false
  end.

Fixpoint indent (tabs : nat) : jsstring :=
  match tabs with
  | O => []
  | S t => str "   " ++ indent t
  end.

Definition zip_path (destPath fileNameNoExt ext : jsstring) : jsstring :=
  destPath ++ str "/" ++ fileNameNoExt ++ str "." ++ ext ++ str ".zip".

(** [modelManager.accept(visitor, {fileWriter})] (line 149) with the
    overridden [closeFile] of lines 134-147: a unit closed is added to the
    archive, and the archive is written at once. *)
Fixpoint accept (path visitorName : jsstring) (ops : list sinkOp)
  (fw : FileWriter) (zip : list zipEntry) : M unit :=
  match ops with
  | [] => ret tt
  | OpenFile n :: ops' =>
      accept path visitorName ops' (MkFileWriter (Some n) (buffer fw)) zip
  | WriteLine tabs text :: ops' =>
      if truthy (fileName fw)
      then accept path visitorName ops'
             (MkFileWriter (fileName fw)
                (buffer fw ++ indent tabs ++ text ++ [10]))
             zip
      else throw (Error (str "File has not been opened!"))
  | CloseFile :: ops' =>
      match fileName fw with
      | Some ((_ :: _) as n) =>
          let content := buffer fw in
          let zip' :=
            zip_addFile zip
              (MkEntry n (Buffer_alloc (List.length content) content)
                 (str "Generated by " ++ visitorName)) in
          write_disk path (Zip zip') ;;
          accept path visitorName ops' (MkFileWriter None []) zip'
      | _ => throw (Error (str "No file open"))
      end
  | Raise e :: _ => throw e
  end.

Definition generate (thisConcerto : Binding) (visitorName ext_ buildDir destPath
  fileNameNoExt : jsstring) (modelManager : nat) : M unit :=
  try_catch
    (match CodeGen thisConcerto visitorName with
     | Some traversal =>
         mm <- deref modelManager ;;
         accept (zip_path destPath fileNameNoExt ext_) visitorName
           (traversal mm) (MkFileWriter None []) []
     | None => ret tt   (* not supported in this version of Concerto *)
     end)
    (fun err =>
       message <- message_text (in_template err) ;;
       console_log (LogGenerating visitorName destPath fileNameNoExt message)).

(** ** The environment of a run *)

(** [String.prototype.localeCompare], the collation of the host. *)
Class Collator := {
  localeCompare : jsstring -> jsstring -> Z
}.

(** What the script reads from outside itself: the command line, the
    registry module, the file system, the template engine and the diagram
    encoder.  An operation that can fail returns the error it throws. *)
Record Env := MkEnv {
  argv2 : option jsstring;                       (* process.argv[2] *)
  (* file.match(filter) for a filter given: is there a match *)
  String_match : jsstring -> jsstring -> result bool;
  getFiles : result (list jsstring);             (* getFiles(rootDir) *)
  readFileSync : jsstring -> result jsstring;
  concertoVersions : registry;                   (* require('./concertoVersions') *)
  FORCE_PUBLISH : bool;                          (* process.env.FORCE_PUBLISH *)
  rootDir : jsstring;
  buildDir : jsstring;
  ensureDir : jsstring -> option exn;            (* fs.ensureDir *)
  copy : jsstring -> jsstring -> option exn;     (* fs.copy *)
  (* nunjucks.render('model.njk', ...): file path, model, version, diagram *)
  render_model :
    jsstring -> ModelFile -> jsstring -> option jsstring -> Binding
    -> result jsstring;
  (* nunjucks.render('index.njk', ...) *)
  render_index : list IndexEntry -> result jsstring;
  plantuml_encode : jsstring -> jsstring         (* plantumlEncoder.encode *)
}.

Section Build.
Context `{Semver} `{Collator}.
Variable env : Env.

Definition fs_copy (source dest : jsstring) : M unit :=
  lift_void (copy env source dest) ;;
  write_disk dest (CopyOf source).

Definition fs_ensureDir (dir : jsstring) : M unit :=
  lift_void (ensureDir env dir) ;;
  make_dir dir.

(** lines 160-180 *)
Definition generatePlantUML (thisConcerto : Binding)
  (destPath fileNameNoExt : jsstring) (modelFile_ : ModelFile)
  : M (option jsstring) :=
  try_catch
    (let generatedPumlFile := destPath ++ str "/" ++ fileNameNoExt ++ str ".puml" in
     body <- lift (plantUML thisConcerto modelFile_) ;;
     let modelFilePlantUML :=
       str "@startuml" ++ [10] ++ body ++ str "@enduml" ++ [10] in
     write_disk generatedPumlFile (Text modelFilePlantUML) ;;
     ret (Some (str "https://www.plantuml.com/plantuml/svg/"
                ++ plantuml_encode env modelFilePlantUML)))
    (fun err =>
       message <- message_text (in_template err) ;;
       console_log
         (LogGenerating (str "PlantUML") destPath fileNameNoExt message) ;;
       ret None).

(** lines 182-201 *)
Definition generateJsonAst (thisConcerto : Binding)
  (destPath fileNameNoExt : jsstring) (modelFile_ : ModelFile) : M unit :=
  try_catch
    (let generatedJsonFile :=
       destPath ++ str "/" ++ fileNameNoExt ++ str ".ast.json" in
     modelManager <- deref (mf_manager modelFile_) ;;
     ast <- lift (jsonAst thisConcerto modelManager modelFile_) ;;
     write_disk generatedJsonFile (Text ast))
    (fun err =>
       message <- message_text (in_template err) ;;
       console_log
         (LogGenerating (str "JSON Syntax Tree") destPath fileNameNoExt
            message)).

(** lines 255-263: the container of a file. *)
Definition setupModelManager (thisConcerto : Binding) : M nat :=
  modelManager <- new_ModelManager false ;;
  (if satisfies (concertoVersion thisConcerto) (str "0.82.x") then
     (* load system model if we are using 0.82 *)
     systemModel <- lift (readFileSync env (rootDir env ++ str "/cicero/base.cto")) ;;
     do_addModelFile thisConcerto modelManager
       (AddSystemModel systemModel (str "base.cto"))
   else ret tt) ;;
  match lte (concertoVersion thisConcerto) (str "3.0.0") with
  | None => throw TypeError
  | Some true => new_ModelManager true
  | Some false => ret modelManager
  end.

(** lines 265-273 *)
Definition compileModel (thisConcerto : Binding) (modelManager : nat)
  (modelText file : jsstring) : M ModelFile :=
  mm <- deref modelManager ;;
  names <-
    (if satisfies (concertoVersion thisConcerto) (str "0.82.x") then
       lift (ModelFile_text thisConcerto mm modelText file)
     else
       ast <- lift (Parser_parse thisConcerto modelText file) ;;
       lift (ModelFile_ast thisConcerto mm ast modelText file)) ;;
  ret (MkModelFile (fst names) (snd names) modelText modelManager).

(** lines 288-289 *)
Definition isLegacyModelVersionScheme (relative : jsstring) : bool :=
  match match_all versionSegmentRegex relative with
  | Some modelVersionStr => Nat.eqb (List.length modelVersionStr) 1
  | None => false
  end.

(** line 291 *)
Definition semverStr (registeredName : jsstring) : jsstring :=
  match pop (split at_sign registeredName) with
  | Some last => slice_to_minus 4 last
  | None => []
  end.

(** lines 292-293 *)
Definition deriveModelVersion (registeredName : jsstring) : jsstring :=
  if truthy (valid (semverStr registeredName))
  then semverStr registeredName
  else str "0.1.0".

(** lines 311-314 *)
Fixpoint runGenerators (generators : list generatorSpec)
  (thisConcerto : Binding) (destPath fileNameNoExt : jsstring)
  (modelManager : nat) : M unit :=
  match generators with
  | [] => ret tt
  | codeGenerator :: generators' =>
      generate thisConcerto (visitor codeGenerator) (ext codeGenerator)
        (buildDir env) destPath fileNameNoExt modelManager ;;
      runGenerators generators' thisConcerto destPath fileNameNoExt modelManager
  end.

(** lines 291-338: a file of the current versioning scheme. *)
Definition publishModel (thisConcerto : Binding) (modelManager : nat)
  (modelFile_ : ModelFile) (modelText file dest destPath relative
  fileNameNoExt : jsstring) : M unit :=
  let modelVersion_ := deriveModelVersion (mf_name modelFile_) in
  (if satisfies (concertoVersion thisConcerto) (str "0.82.x") then
     do_addModelFile thisConcerto modelManager
       (AddLegacy modelFile_ (mf_name modelFile_))
   else
     do_addModelFile thisConcerto modelManager
       (AddCurrent modelFile_ modelText (mf_name modelFile_))) ;;
  (if FORCE_PUBLISH env then ret tt
   else mm <- deref modelManager ;;
        lift_void (updateExternalModels thisConcerto mm)) ;;
  umlURL <- generatePlantUML thisConcerto destPath fileNameNoExt modelFile_ ;;
  generateJsonAst thisConcerto destPath fileNameNoExt modelFile_ ;;
  runGenerators CODE_GENERATORS thisConcerto destPath fileNameNoExt modelManager ;;
  fs_copy file dest ;;
  let generatedHtmlFile := relative ++ str "/" ++ fileNameNoExt ++ str ".html" in
  templateResult <-
    lift (render_model env (relative ++ str "/" ++ fileNameNoExt) modelFile_
            modelVersion_ umlURL thisConcerto) ;;
  push_index (MkIndexEntry generatedHtmlFile modelFile_ modelVersion_) ;;
  console_log (LogProcessed (mf_namespace modelFile_) modelVersion_) ;;
  write_disk (str "./build/" ++ generatedHtmlFile) (Text templateResult).

(** line 249: [file.match(filter)] as a condition: whether there is a
    match.  [match] makes a regular expression of its argument.  Of
    [undefined] it makes the one with the empty pattern, and the match is
    the matcher's on that; of a string it makes what the engine compiles the
    string to, and the match is the environment's. *)
Definition filter_matches (file : jsstring) : M bool :=
  match argv2 env with
  | None =>
      ret match match_first Eps file with
          | Some _ => true
          | None => false
          end
  | Some filter => lift (String_match env file filter)
  end.

(** A member access on what [findCompatibleVersion] returned. *)
Definition as_binding (v : jsval) : M Binding :=
  match v with
  | VBinding b => ret b
  | _ => throw TypeError
  end.

(** lines 253-342: the body of the loop after the filter. *)
Definition handleFile (file : jsstring) : M unit :=
  modelText <- lift (readFileSync env file) ;;
  found <- lift (findCompatibleVersion (concertoVersions env) modelText) ;;
  thisConcerto <- as_binding found ;;
  modelManager <- setupModelManager thisConcerto ;;
  modelFile_ <- compileModel thisConcerto modelManager modelText file ;;
  console_log (LogProcessing (mf_namespace modelFile_)
                 (concertoVersion thisConcerto)) ;;
  let dest := replace_first (str "/src/") (str "/build/") file in
  let destPath := dirname dest in
  let relative := slice_from (List.length (buildDir env)) destPath in
  let fileName_ := basename file in
  let fileNameNoExt := parse_name fileName_ in
  fs_ensureDir destPath ;;
  if negb (isLegacyModelVersionScheme relative) then
    publishModel thisConcerto modelManager modelFile_ modelText file dest
      destPath relative fileNameNoExt
  else
    (* copy the CTO file to the build dir *)
    fs_copy file dest.

(** lines 343-347: the catch clause of a turn. *)
Definition reportError (file : jsstring) (err : exn) : M unit :=
  console_log (LogErrorHandling file) ;;
  message <- message_text (message_logged err) ;;
  console_log (LogErrorMessage message) ;;
  lift_void (shown err) ;;
  console_log (LogError err).

(** lines 248-347: one turn of the loop. *)
Definition processFile (file : jsstring) : M unit :=
  try_catch
    (matches <- filter_matches file ;;
     if negb matches then ret tt else handleFile file)
    (reportError file).

Fixpoint processFiles (files : list jsstring) : M unit :=
  match files with
  | [] => ret tt
  | file :: files' => processFile file ;; processFiles files'
  end.

(** [Array.prototype.sort] with a comparator is a stable sort; for a
    consistent comparator its result is the one of this insertion sort. *)
Fixpoint insert_sorted {A} (cmp : A -> A -> Z) (x : A) (l : list A) : list A :=
  match l with
  | [] => [x]
  | y :: l' =>
      if (cmp x y <? 0)%Z then x :: y :: l'
      else y :: insert_sorted cmp x l'
  end.

Definition array_sort {A} (cmp : A -> A -> Z) (l : list A) : list A :=
  fold_left (fun sorted x => insert_sorted cmp x sorted) l [].

(** line 351: the comparator of the final sort. *)
Definition byNamespace (a b : IndexEntry) : Z :=
  localeCompare (mf_namespace (modelFile a)) (mf_namespace (modelFile b)).

Definition sort_index : M unit :=
  fun w => (Ok tt, MkWorld (w_managers w) (w_disk w) (w_dirs w) (w_log w)
                           (array_sort byNamespace (w_index w))).

(** lines 237-241 *)
Definition copyAssets : M unit :=
  fs_copy (str "assets") (str "./build/assets") ;;
  fs_copy (str "styles.css") (str "./build/styles.css") ;;
  fs_copy (str "fonts.css") (str "./build/fonts.css") ;;
  fs_copy (str "_headers") (str "./build/_headers") ;;
  fs_copy (str "_redirects") (str "./build/_redirects").

(** lines 229-359 *)
Definition main : M unit :=
  (* rimraf.sync(buildDir): the build directory starts empty *)
  copyAssets ;;
  files <- lift (getFiles env) ;;
  processFiles files ;;
  sort_index ;;
  modelFileIndex <- (fun w => (Ok (w_index w), w)) ;;
  templateResult <- lift (render_index env modelFileIndex) ;;
  write_disk (str "./build/index.html") (Text templateResult).

End Build.

(** ** What the expression of line 288 finds, stated without the matcher

    The expression has no anchors, so what it finds are occurrences of the
    pattern anywhere in the path, whether or not they fill a directory
    name. *)

(** The longest run of digits a string starts with, and what follows it. *)
Fixpoint digits_run (s : jsstring) : jsstring * jsstring :=
  match s with
  | c :: s' =>
      if is_digit c then let '(ds, r) := digits_run s' in (c :: ds, r)
      else ([], s)
  | [] => ([], [])
  end.

(** [.<digits>] at the head of a string. *)
Definition dot_digits (s : jsstring) : option (jsstring * jsstring) :=
  match s with
  | c :: s' =>
      if N.eqb c dot then
        match digits_run s' with
        | ([], _) => None
        | (ds, r) => Some (c :: ds, r)
        end
      else None
  | [] => None
  end.

(** The occurrence of [v<digits>[.<digits>[.<digits>]]] a string starts
    with, as long as it can be, and what follows it. *)
Definition version_occurrence (s : jsstring) : option (jsstring * jsstring) :=
  match s with
  | c :: s1 =>
      if N.eqb c 118 then
        match digits_run s1 with
        | ([], _) => None
        | (d1, r1) =>
            match dot_digits r1 with
            | None => Some (c :: d1, r1)
            | Some (d2, r2) =>
                match dot_digits r2 with
                | None => Some (c :: d1 ++ d2, r2)
                | Some (d3, r3) => Some (c :: d1 ++ d2 ++ d3, r3)
                end
            end
        end
      else None
  | [] => None
  end.

(** The occurrences of the pattern in a path, left to right, none
    overlapping the one before; [skip] units of the occurrence found last
    are still to be passed. *)
Fixpoint version_occurrences_from (s : jsstring) (skip : nat) : list jsstring :=
  match s with
  | [] => []
  | _ :: s' =>
      match skip with
      | S k => version_occurrences_from s' k
      | O =>
          match version_occurrence s with
          | Some (seg, _) => seg :: version_occurrences_from s' (List.length seg - 1)
          | None => version_occurrences_from s' 0
          end
      end
  end.

Definition version_occurrences (path : jsstring) : list jsstring :=
  version_occurrences_from path 0.

(** ** The specification's notions, stated on their own

    These follow the specification's words rather than the script; the
    theorems below compare them with the script's definitions. *)

(** A run of digits, at least one. *)
Definition digits (s : jsstring) : bool :=
  match s with
  | [] => false
  | _ :: _ => forallb is_digit s
  end.

(** A segment of a path that is a version: [v], then one, two or three
    runs of digits with dots between them, and nothing more. *)
Definition is_version_segment (segment : jsstring) : bool :=
  match segment with
  | c :: numbers =>
      N.eqb c 118
      && match split dot numbers with
         | [a] => digits a
         | [a; b] => digits a && digits b
         | [a; b; c'] => digits a && digits b && digits c'
         | _ => false
         end
  | [] => false
  end.

(** The segments of a path -- what stands between its slashes -- that are
    versions. *)
Definition version_path_segments (path : jsstring) : list jsstring :=
  filter is_version_segment (split slash path).

(** A range with all its whitespace removed. *)
Definition strip_whitespace (range : jsstring) : jsstring :=
  filter (fun c => negb (is_whitespace c)) range.

(** The range a version directive of the text gives, as written there: the
    declaration line if there is one, else the comment line. *)
Definition directive_range (modelText : jsstring) : option jsstring :=
  match match_first declarationRegex modelText with
  | Some m => group m
  | None =>
      match match_first commentRegex modelText with
      | Some m => group m
      | None => None
      end
  end.

(** A string that stays on one line. *)
Definition no_terminator (s : jsstring) : Prop :=
  Forall (fun c => is_line_terminator c = false) s.

(** A position where a line ends: the end of the text, or a terminator. *)
Definition line_end (s : jsstring) : Prop :=
  match s with
  | [] => True
  | c :: _ => is_line_terminator c = true
  end.

(** The declaration line of a range: [concerto version], the range in
    double quotes. *)
Definition declaration_line (range : jsstring) : jsstring :=
  str "concerto version " ++ dquote :: range ++ [dquote].

(** Lines, each ended by a line feed. *)
Definition unlines (lines : list jsstring) : jsstring :=
  List.concat (List.map (fun l => l ++ [10]) lines).

(** The registry's default binding. *)
Definition default_binding (concertoVersions : registry) : jsval :=
  get concertoVersions (to_key (get concertoVersions (str "defaultVersion"))).

(** The first registry entry whose key satisfies a range. *)
Definition first_satisfying `{Semver} (concertoVersions : registry)
  (range : jsstring) : option (jsstring * jsval) :=
  find (fun entry => satisfies (fst entry) range) concertoVersions.

(** A comparator the sort can rely on: the two orders of a pair agree, and
    the order is transitive. *)
Definition consistent_comparator {A} (cmp : A -> A -> Z) : Prop :=
  (forall a b, (cmp a b < 0)%Z <-> (cmp b a > 0)%Z)
  /\ (forall a b c, (cmp a b <= 0)%Z -> (cmp b c <= 0)%Z -> (cmp a c <= 0)%Z).

(** One output unit as a visitor writes it: opened, its lines written,
    closed. *)
Definition output_unit (unitName : jsstring) (lines : list jsstring)
  : list sinkOp :=
  OpenFile unitName :: List.map (WriteLine 0) lines ++ [CloseFile].

(** The text of a unit written line by line. *)
Definition unit_text (lines : list jsstring) : jsstring :=
  List.concat (List.map (fun l => l ++ [10]) lines).

(** The destination of a source file and its directory below the build
    directory (lines 277-279). *)
Definition dest_of (file : jsstring) : jsstring :=
  replace_first (str "/src/") (str "/build/") file.

Definition relative_of (env : Env) (file : jsstring) : jsstring :=
  slice_from (List.length (buildDir env)) (dirname (dest_of file)).

(** The page of a source file, as the index names it (line 320). *)
Definition html_of (env : Env) (file : jsstring) : jsstring :=
  relative_of env file ++ str "/" ++ parse_name (basename file) ++ str ".html".

(** The namespace an index entry is sorted by. *)
Definition entry_namespace (e : IndexEntry) : jsstring :=
  mf_namespace (modelFile e).

(** ** What computations do to the world *)

(** Every run of [c] takes a world to one related to it by [R], whether it
    returns or throws. *)
Definition keeps {A} (R : World -> World -> Prop) (c : M A) : Prop :=
  forall w, R w (snd (c w)).

(** The files written and the index are as they were. *)
Definition outputs_kept (w w' : World) : Prop :=
  w_disk w' = w_disk w /\ w_index w' = w_index w.

(** Nothing but at most one copy of [file] to [dest] was written. *)
Definition only_copied (file dest : jsstring) (w w' : World) : Prop :=
  w_index w' = w_index w
  /\ (w_disk w' = w_disk w \/ w_disk w' = (dest, CopyOf file) :: w_disk w).

(** Every run of [c] that returns takes a world to one related to it by
    [R]. *)
Definition on_return {A} (R : World -> World -> Prop) (c : M A) : Prop :=
  forall w a w', c w = (Ok a, w') -> R w w'.

(** What a computation does to the world when it returns, and what when it
    throws. *)
Definition outcome {A} (Rok Rthrow : World -> World -> Prop) (c : M A) : Prop :=
  forall w,
    match c w with
    | (Ok _, w') => Rok w w'
    | (Throw _, w') => Rthrow w w'
    end.

(** The console has the lines it had, and perhaps more after them. *)
Definition log_extends (w w' : World) : Prop :=
  exists lines, w_log w' = lines ++ w_log w.

(** ... with a line as [P] wants it among the new ones. *)
Definition logs (P : logLine -> Prop) (w w' : World) : Prop :=
  exists lines,
    w_log w' = lines ++ w_log w /\ exists line, In line lines /\ P line.

(** The lines by which a turn of the loop shows on the console that it
    took up a file: the line of line 274, or the first line of the catch
    clause. *)
Definition taken_up (file : jsstring) (line : logLine) : Prop :=
  line = LogErrorHandling file
  \/ exists namespace version, line = LogProcessing namespace version.

(** The index is as it was. *)
Definition index_kept (w w' : World) : Prop := w_index w' = w_index w.

(** The index has what it had, and perhaps more after it. *)
Definition index_extends (w w' : World) : Prop :=
  exists l, w_index w' = w_index w ++ l.

(** One entry was appended to the index. *)
Definition index_appended (e : IndexEntry) (w w' : World) : Prop :=
  w_index w' = w_index w ++ [e].

(** The containers and the index are as they were, and the files written
    before are still there, below the new ones. *)
Definition grows (w w' : World) : Prop :=
  w_managers w' = w_managers w /\ w_index w' = w_index w
  /\ exists l, w_disk w' = l ++ w_disk w.

(** The world with more files written. *)
Definition with_writes (w : World) (l : list (jsstring * fileData)) : World :=
  MkWorld (w_managers w) (l ++ w_disk w) (w_dirs w) (w_log w) (w_index w).

Definition with_log (w : World) (l : logLine) : World :=
  MkWorld (w_managers w) (w_disk w) (w_dirs w) (l :: w_log w) (w_index w).

(** The container a reference leads to. *)
Definition manager_at (w : World) (r : nat) : ModelManagerObj :=
  nth r (w_managers w) empty_manager.

(** The world after a model file was added to a container. *)
Definition with_added (w : World) (r : nat) (fileName_ : jsstring) : World :=
  MkWorld
    (update_nth r
       (fun m => MkModelManager (mm_strict m) (mm_files m ++ [fileName_]))
       (w_managers w))
    (w_disk w) (w_dirs w) (w_log w) (w_index w).

(** The registration call of lines 295-300. *)
Definition registration `{Semver} (thisConcerto : Binding)
  (modelFile_ : ModelFile) (modelText : jsstring) : addCall :=
  if satisfies (concertoVersion thisConcerto) (str "0.82.x")
  then AddLegacy modelFile_ (mf_name modelFile_)
  else AddCurrent modelFile_ modelText (mf_name modelFile_).

(** The archives one traversal has the sink write -- [accept] read for its
    writes alone --, one after each unit closed, the first written first. *)
Fixpoint archive_writes (visitorName : jsstring) (ops : list sinkOp)
  (fw : FileWriter) (zip : list zipEntry) : list (list zipEntry) :=
  match ops with
  | [] => []
  | OpenFile n :: ops' =>
      archive_writes visitorName ops' (MkFileWriter (Some n) (buffer fw)) zip
  | WriteLine tabs text :: ops' =>
      if truthy (fileName fw)
      then archive_writes visitorName ops'
             (MkFileWriter (fileName fw)
                (buffer fw ++ indent tabs ++ text ++ [10]))
             zip
      else []
  | CloseFile :: ops' =>
      match fileName fw with
      | Some ((_ :: _) as n) =>
          let zip' :=
            zip_addFile zip
              (MkEntry n (Buffer_alloc (List.length (buffer fw)) (buffer fw))
                 (str "Generated by " ++ visitorName)) in
          zip' :: archive_writes visitorName ops' (MkFileWriter None []) zip'
      | _ => []
      end
  | Raise _ :: _ => []
  end.

(** The archive writes of one traversal as disk writes, the latest first. *)
Definition zip_writes (path visitorName : jsstring) (ops : list sinkOp)
  : list (jsstring * fileData) :=
  rev (List.map (fun z => (path, Zip z))
         (archive_writes visitorName ops (MkFileWriter None []) [])).

(** What one invocation of [generate] writes. *)
Definition generate_writes (b : Binding) (visitorName path : jsstring)
  (mm : ModelManagerObj) : list (jsstring * fileData) :=
  match CodeGen b visitorName with
  | Some traversal => zip_writes path visitorName (traversal mm)
  | None => []
  end.

(** A value thrown whose message goes into a template: one the catch
    clauses of lines 156, 178 and 199 can log. *)
Definition with_message (e : exn) : Prop :=
  exists message, in_template e = inl message.

(** A traversal that throws, where it throws a value of its own, a value
    with such a message. *)
Definition raises_with_message (ops : list sinkOp) : Prop :=
  forall e, In (Raise e) ops -> with_message e.

(** An expression of the shape [... (?<versionRange> r) ...]: every match
    fills the group. *)
Fixpoint fills_group (r : Regex.regex) : bool :=
  match r with
  | Regex.Named _ => true
  | Regex.Seq r1 r2 => fills_group r1 || fills_group r2
  | _ => false
  end.

(** The order a comparator sorts by. *)
Definition precedes {A} (cmp : A -> A -> Z) (a b : A) : Prop :=
  (cmp a b <= 0)%Z.

(** ** A small run, for the worked examples

    Three toolchain versions, two model files, and a generator that throws
    while it writes its third unit. *)

Module Sample.

(** Code-unit order, standing in for the host's collation (the two agree on
    the lower-case names of the examples). *)
Definition unit_order : Collator := {|
  localeCompare a b :=
    match NodeSemver.compare_str a b with
    | Lt => (-1)%Z
    | Eq => 0%Z
    | Gt => 1%Z
    end
|}.

(** The XML Schema generator of the example: two units, then an error. *)
Definition failing_traversal (_ : ModelManagerObj) : list sinkOp :=
  output_unit (str "a.xsd") [str "<a/>"]
  ++ output_unit (str "b.xsd") [str "<b/>"; str "<c/>"]
  ++ [OpenFile (str "c.xsd"); WriteLine 1 (str "<d>")]
  ++ [Raise (Error (str "boom"))].

Definition typescript_traversal (_ : ModelManagerObj) : list sinkOp :=
  output_unit (str "model.ts") [str "export class A {}"].

Definition codeGen (visitorName : jsstring)
  : option (ModelManagerObj -> list sinkOp) :=
  if JS.eqb visitorName (str "XmlSchemaVisitor") then Some failing_traversal
  else if JS.eqb visitorName (str "TypescriptVisitor")
       then Some typescript_traversal
       else None.

(** A toolchain that accepts every model; the namespace of a model is what
    follows [namespace ] on its first line. *)
Definition namespace_of (text : jsstring) : jsstring :=
  fst (NodeSemver.cut 10 (skipn 10 text)).

Definition toolchain (version : jsstring) : Binding := {|
  concertoVersion := version;
  Parser_parse := fun text file => Ok (str "{}");
  ModelFile_text := fun mm text file => Ok (namespace_of text, file);
  ModelFile_ast := fun mm ast text file => Ok (namespace_of text, file);
  addModelFile := fun mm call => None;
  updateExternalModels := fun mm => None;
  CodeGen := codeGen;
  plantUML := fun mf => Ok (str "class A");
  jsonAst := fun mm mf => Ok (str "{}")
|}.

(** A toolchain whose XML Schema generator throws [null] after its first
    unit. *)
Definition null_traversal (_ : ModelManagerObj) : list sinkOp :=
  output_unit (str "a.xsd") [str "<a/>"] ++ [Raise nullish].

Definition throwing_null : Binding := {|
  concertoVersion := str "3.0.0";
  Parser_parse := fun text file => Ok (str "{}");
  ModelFile_text := fun mm text file => Ok (namespace_of text, file);
  ModelFile_ast := fun mm ast text file => Ok (namespace_of text, file);
  addModelFile := fun mm call => None;
  updateExternalModels := fun mm => None;
  CodeGen := fun visitorName =>
    if JS.eqb visitorName (str "XmlSchemaVisitor") then Some null_traversal
    else codeGen visitorName;
  plantUML := fun mf => Ok (str "class A");
  jsonAst := fun mm mf => Ok (str "{}")
|}.

Definition concerto_0_82 : Binding := toolchain (str "0.82.11").
Definition concerto_1_5 : Binding := toolchain (str "1.5.0").
Definition concerto_3_0 : Binding := toolchain (str "3.0.0").

Definition sample_registry : registry :=
  [ (str "0.82.11", VBinding concerto_0_82);
    (str "1.5.0", VBinding concerto_1_5);
    (str "3.0.0", VBinding concerto_3_0);
    (str "defaultVersion", VString (str "3.0.0")) ].

Definition z_file : jsstring := str "/repo/src/z/model@1.2.3.cto".
Definition a_file : jsstring := str "/repo/src/a/model.cto".
Definition old_file : jsstring := str "/repo/src/cicero/v2/old.cto".
Definition legacy_file : jsstring := str "/repo/src/legacy/contract.cto".
Definition dev_file : jsstring := str "/repo/src/dev2/model.cto".

Definition z_text : jsstring :=
  str "namespace z.model" ++ [10] ++ declaration_line (str "^3.0.0") ++ [10].
Definition a_text : jsstring := str "namespace a.model" ++ [10].
Definition old_text : jsstring := str "namespace old.model" ++ [10].
Definition dev_text : jsstring := str "namespace dev.model" ++ [10].
Definition legacy_text : jsstring :=
  str "namespace org.legacy" ++ [10]
  ++ str "// requires: concerto-core:0.82" ++ [10].

Definition read (path : jsstring) : result jsstring :=
  if JS.eqb path z_file then Ok z_text
  else if JS.eqb path a_file then Ok a_text
  else if JS.eqb path old_file then Ok old_text
  else if JS.eqb path legacy_file then Ok legacy_text
  else if JS.eqb path dev_file then Ok dev_text
  else if JS.eqb path (str "/repo/src/cicero/base.cto")
       then Ok (str "namespace base")
       else Throw (Error (str "ENOENT")).

Definition sample_env (files : list jsstring) : Env := {|
  argv2 := None;
  String_match := fun file filter => Ok true;
  getFiles := Ok files;
  readFileSync := read;
  concertoVersions := sample_registry;
  FORCE_PUBLISH := false;
  rootDir := str "/repo/src";
  buildDir := str "/repo/build";
  ensureDir := fun dir => None;
  copy := fun source dest => None;
  render_model := fun path mf version url b => Ok (str "<html>");
  render_index := fun entries => Ok (str "<index>");
  plantuml_encode := fun s => s
|}.

(** The sample run with the toolchain that throws [null] as the only
    one. *)
Definition null_registry : registry :=
  [ (str "3.0.0", VBinding throwing_null);
    (str "defaultVersion", VString (str "3.0.0")) ].

Definition null_env : Env := {|
  argv2 := None;
  String_match := fun file filter => Ok true;
  getFiles := Ok [a_file];
  readFileSync := read;
  concertoVersions := null_registry;
  FORCE_PUBLISH := false;
  rootDir := str "/repo/src";
  buildDir := str "/repo/build";
  ensureDir := fun dir => None;
  copy := fun source dest => None;
  render_model := fun path mf version url b => Ok (str "<html>");
  render_index := fun entries => Ok (str "<index>");
  plantuml_encode := fun s => s
|}.

Definition z_model : ModelFile :=
  MkModelFile (str "z.model") z_file z_text 1.
Definition a_model : ModelFile :=
  MkModelFile (str "a.model") a_file a_text 3.

(** A world with one strict container, as the script has it when it comes
    to line 291. *)
Definition one_container : World :=
  MkWorld [MkModelManager true []] [] [] [] [].

(** The text of the counterexample to C2. *)
Definition spaced_range_text : jsstring := declaration_line (str ">=1.0.0 <2.0.0").

(** The text of the failing input of C9. *)
Definition two_spaces_text : jsstring := declaration_line (str ">= 1.0.0 < 2.0.0").

End Sample.

(** * Properties *)

Import Sample.
Local Open Scope js_scope.

(** ** The matcher on the version-segment expression *)

Lemma star_head (a : atom) (s : jsstring) :
  forall p g, star a p s g <> [].
Proof.
  induction s as [|c s IH]; intros p g; simpl.
  - discriminate.
  - destruct (atom_ok a c).
    + intro E. apply app_eq_nil in E. destruct E as [_ E]. discriminate.
    + discriminate.
Qed.

(** The head of a greedy run of digits is the state after the longest run. *)
Lemma star_digits_head (s : jsstring) :
  forall p g,
  exists p' tl,
    star Dig p s g = MState p' (snd (digits_run s)) g :: tl.
Proof.
  induction s as [|c s IH]; intros p g; simpl.
  - exists p, []. reflexivity.
  - destruct (is_digit c) eqn:E.
    + destruct (IH (Some c) g) as (p' & tl & Hs).
      rewrite Hs. destruct (digits_run s) as [ds r]. simpl in *.
      exists p', (tl ++ [MState p (c :: s) g]). reflexivity.
    + exists p, []. reflexivity.
Qed.

Lemma digits_run_app (s : jsstring) :
  fst (digits_run s) ++ snd (digits_run s) = s.
Proof.
  induction s as [|c s IH]; simpl; [reflexivity|].
  destruct (is_digit c); [|reflexivity].
  destruct (digits_run s) as [ds r]. simpl in *. now rewrite IH.
Qed.

Lemma digits_run_nil (s : jsstring) :
  fst (digits_run s) = [] ->
  match s with [] => True | c :: _ => is_digit c = false end.
Proof.
  destruct s as [|c s]; simpl; [trivial|].
  destruct (is_digit c); [|trivial].
  destruct (digits_run s). discriminate.
Qed.

Lemma run_seq (r1 r2 : regex) (st : mstate) :
  run (Seq r1 r2) st = flat_map (run r2) (run r1 st).
Proof. reflexivity. Qed.

Lemma run_seq_atom (a : atom) (r : regex) (p : option N) (c : N)
  (s : jsstring) (g : option jsstring) :
  run (Seq (Atom a) r) (MState p (c :: s) g) =
  if atom_ok a c then run r (MState (Some c) s g) else [].
Proof.
  rewrite run_seq. cbn [run]. unfold step. cbn [rest group].
  destruct (atom_ok a c); cbn [flat_map]; [apply app_nil_r|reflexivity].
Qed.

Lemma run_seq_atom_nil (a : atom) (r : regex) (p : option N)
  (g : option jsstring) :
  run (Seq (Atom a) r) (MState p [] g) = [].
Proof. reflexivity. Qed.

Lemma plus_digits_head (p : option N) (s : jsstring) (g : option jsstring) :
  match digits_run s with
  | ([], _) => run (Plus Dig) (MState p s g) = []
  | (_ :: _, r) => exists p' tl, run (Plus Dig) (MState p s g) = MState p' r g :: tl
  end.
Proof.
  destruct s as [|c s]; simpl; [reflexivity|].
  unfold step; simpl.
  destruct (is_digit c) eqn:E.
  - simpl.
    destruct (star_digits_head s (Some c) g) as (p' & tl & Hs).
    destruct (digits_run s) as [ds r]. simpl in *.
    rewrite app_nil_r. eauto.
  - reflexivity.
Qed.

(** [\.\d+] started at [s]. *)
Lemma dot_digits_head (p : option N) (s : jsstring) (g : option jsstring) :
  match dot_digits s with
  | None => run (Seq (Atom (Lit dot)) (Plus Dig)) (MState p s g) = []
  | Some (_, r) =>
      exists p' tl,
        run (Seq (Atom (Lit dot)) (Plus Dig)) (MState p s g) = MState p' r g :: tl
  end.
Proof.
  unfold dot_digits.
  destruct s as [|c s]; [reflexivity|].
  rewrite run_seq_atom. cbn [atom_ok].
  destruct (N.eqb c dot); [|reflexivity].
  pose proof (plus_digits_head (Some c) s g) as Hp.
  destruct (digits_run s) as [[|d ds] r]; exact Hp.
Qed.

(** The head of the bounded group. *)
Lemma upto2_head (r : regex) (st : mstate) :
  hd_error (run (Upto2 r) st) =
  Some match run r st with
       | [] => st
       | st1 :: _ => match run r st1 with
                     | [] => st1
                     | st2 :: _ => st2
                     end
       end.
Proof.
  cbn [run]. destruct (run r st) as [|st1 l]; [reflexivity|].
  cbn [flat_map]. destruct (run r st1) as [|st2 l2]; reflexivity.
Qed.

Lemma hd_error_flat_map {A B} (f : A -> list B) (x : A) (l : list A) :
  f x <> [] -> hd_error (flat_map f (x :: l)) = hd_error (f x).
Proof.
  cbn [flat_map]. destruct (f x); [congruence|reflexivity].
Qed.

Lemma dot_digits_app (s seg r : jsstring) :
  dot_digits s = Some (seg, r) -> s = seg ++ r.
Proof.
  unfold dot_digits. destruct s as [|c s]; [discriminate|].
  destruct (N.eqb c dot); [|discriminate].
  pose proof (digits_run_app s) as Hs.
  destruct (digits_run s) as [[|d ds] r']; [discriminate|].
  simpl in Hs. intros E. injection E as <- <-. simpl. now rewrite Hs.
Qed.

Lemma version_segment_app (s seg r : jsstring) :
  version_occurrence s = Some (seg, r) -> s = seg ++ r /\ seg <> [].
Proof.
  unfold version_occurrence.
  destruct s as [|c s1]; [discriminate|].
  destruct (N.eqb c 118); [|discriminate].
  pose proof (digits_run_app s1) as H1.
  destruct (digits_run s1) as [[|d ds] r1]; [discriminate|]. simpl in H1.
  destruct (dot_digits r1) as [[d2 r2]|] eqn:E2.
  - apply dot_digits_app in E2.
    destruct (dot_digits r2) as [[d3 r3]|] eqn:E3.
    + apply dot_digits_app in E3.
      intros E. injection E as <- <-. split; [|discriminate].
      rewrite <- H1, E2, E3. simpl. rewrite <- !app_assoc. reflexivity.
    + intros E. injection E as <- <-. split; [|discriminate].
      rewrite <- H1, E2. simpl. rewrite <- !app_assoc. reflexivity.
  - intros E. injection E as <- <-. split; [|discriminate].
    now rewrite <- H1.
Qed.

(** The match attempt of the version-segment expression at a position is
    the segment the input starts with there. *)
Lemma exec_at_version_segment (p : option N) (s : jsstring) :
  match version_occurrence s with
  | Some (_, r) =>
      exists p', exec_at versionSegmentRegex p s = Some (MState p' r None)
  | None => exec_at versionSegmentRegex p s = None
  end.
Proof.
  unfold exec_at, versionSegmentRegex, version_occurrence.
  destruct s as [|c s1]; [reflexivity|].
  rewrite run_seq_atom. cbn [atom_ok].
  destruct (N.eqb c 118); [|reflexivity].
  rewrite run_seq.
  pose proof (plus_digits_head (Some c) s1 None) as Hp.
  destruct (digits_run s1) as [[|d ds] r1].
  { rewrite Hp. reflexivity. }
  destruct Hp as (p1 & tl & Hp). rewrite Hp.
  rewrite hd_error_flat_map.
  2:{ cbn [run]. intro E. apply app_eq_nil in E. destruct E; discriminate. }
  rewrite upto2_head.
  pose proof (dot_digits_head p1 r1 None) as H2.
  destruct (dot_digits r1) as [[d2 r2]|].
  - destruct H2 as (p2 & tl2 & H2). rewrite H2.
    pose proof (dot_digits_head p2 r2 None) as H3.
    destruct (dot_digits r2) as [[d3 r3]|].
    + destruct H3 as (p3 & tl3 & H3). rewrite H3. eauto.
    + rewrite H3. eauto.
  - rewrite H2. eauto.
Qed.

Lemma matched_app (seg r : jsstring) (st : mstate) :
  rest st = r -> matched (seg ++ r) st = seg.
Proof.
  intros <-. unfold matched. rewrite length_app.
  replace (List.length seg + List.length (rest st) - List.length (rest st))%nat
    with (List.length seg) by lia.
  rewrite firstn_app, firstn_all, Nat.sub_diag. simpl. apply app_nil_r.
Qed.

Lemma version_segments_skip (seg r : jsstring) :
  version_occurrences_from (seg ++ r) (List.length seg) = version_occurrences_from r 0.
Proof.
  induction seg as [|c seg IH]; [reflexivity|]. exact IH.
Qed.

Lemma search_version_segment (p : option N) (c : N) (s : jsstring) :
  search versionSegmentRegex p (c :: s) =
  match version_occurrence (c :: s) with
  | Some (_, r) =>
      match exec_at versionSegmentRegex p (c :: s) with
      | Some st => Some (c :: s, st)
      | None => None
      end
  | None => search versionSegmentRegex (Some c) s
  end.
Proof.
  cbn [search].
  pose proof (exec_at_version_segment p (c :: s)) as H.
  destruct (version_occurrence (c :: s)) as [[seg r]|].
  - destruct H as (p' & ->). reflexivity.
  - rewrite H. reflexivity.
Qed.

Lemma search_nil (p : option N) : search versionSegmentRegex p [] = None.
Proof. reflexivity. Qed.

Lemma match_all_from_occurrences (fuel : nat) :
  forall (s : jsstring) (p : option N),
    (List.length s < fuel)%nat ->
    match_all_from fuel versionSegmentRegex p s = version_occurrences_from s 0.
Proof.
  induction fuel as [|fuel IHf]; intros s p Hlen; [lia|].
  revert p Hlen. induction s as [|c s IHs]; intros p Hlen.
  - reflexivity.
  - cbn [match_all_from]. rewrite search_version_segment.
    cbn [version_occurrences_from].
    pose proof (exec_at_version_segment p (c :: s)) as He.
    destruct (version_occurrence (c :: s)) as [[seg r]|] eqn:Ev.
    + destruct He as (p' & ->).
      destruct (version_segment_app _ _ _ Ev) as [Happ Hne].
      destruct seg as [|c0 seg]; [congruence|].
      simpl in Happ. injection Happ as -> ->.
      change (c0 :: seg ++ r) with ((c0 :: seg) ++ r).
      rewrite matched_app by reflexivity.
      f_equal. cbn [prev rest].
      replace (List.length (c0 :: seg) - 1)%nat with (List.length seg)
        by (simpl; lia).
      rewrite version_segments_skip.
      apply IHf. simpl in Hlen. rewrite length_app in Hlen. lia.
    + specialize (IHs (Some c)).
      cbn [match_all_from] in IHs. apply IHs. simpl in Hlen. lia.
Qed.

(** The global match of line 288 finds exactly the version segments of the
    path. *)
Lemma match_all_version_segments (path : jsstring) :
  match_all versionSegmentRegex path =
  match version_occurrences path with
  | [] => None
  | l => Some l
  end.
Proof.
  unfold match_all, version_occurrences.
  rewrite match_all_from_occurrences by lia. reflexivity.
Qed.

Lemma isLegacy_iff_one_occurrence (relative : jsstring) :
  isLegacyModelVersionScheme relative = true
  <-> List.length (version_occurrences relative) = 1%nat.
Proof.
  unfold isLegacyModelVersionScheme. rewrite match_all_version_segments.
  destruct (version_occurrences relative) as [|x l]; simpl.
  - split; [discriminate|lia].
  - rewrite Nat.eqb_eq. split; lia.
Qed.

(** ** The version directive *)

(** Once the named group holds something it keeps holding something. *)
Lemma star_group (a : atom) (s : jsstring) :
  forall p g st, In st (star a p s g) -> group st = g.
Proof.
  induction s as [|c s IH]; intros p g st; simpl.
  - intros [<-|[]]. reflexivity.
  - destruct (atom_ok a c).
    + intros Hin. apply in_app_or in Hin. destruct Hin as [Hin|[<-|[]]].
      * now apply IH in Hin.
      * reflexivity.
    + intros [<-|[]]. reflexivity.
Qed.

Lemma step_group (a : atom) (st st' : mstate) :
  In st' (step a st) -> group st' = group st.
Proof.
  unfold step. destruct (rest st) as [|c s]; [intros []|].
  destruct (atom_ok a c); [|intros []]. intros [<-|[]]. reflexivity.
Qed.

Lemma run_keeps_group (r : regex) :
  forall st st', In st' (run r st) -> group st <> None -> group st' <> None.
Proof.
  induction r as [a|a|a|r1 IH1 r2 IH2|r IH|r IH| | |]; intros st st' Hin Hg;
    cbn [run] in Hin.
  - apply step_group in Hin. congruence.
  - apply star_group in Hin. congruence.
  - apply in_flat_map in Hin. destruct Hin as (st1 & H1 & H2).
    apply step_group in H1. apply star_group in H2. congruence.
  - apply in_flat_map in Hin. destruct Hin as (st1 & H1 & H2).
    eapply IH2; [exact H2|]. eapply IH1; eassumption.
  - apply in_app_or in Hin. destruct Hin as [Hin|[<-|[]]]; [|exact Hg].
    apply in_flat_map in Hin. destruct Hin as (st1 & H1 & H2).
    apply in_app_or in H2. destruct H2 as [H2|[<-|[]]].
    + eapply IH; [exact H2|]. eapply IH; eassumption.
    + eapply IH; eassumption.
  - apply in_map_iff in Hin. destruct Hin as (st1 & <- & _). discriminate.
  - destruct (prev st) as [c|]; [destruct (is_line_terminator c)|];
      try destruct Hin as [<-|[]]; try exact Hg; destruct Hin.
  - destruct (rest st) as [|c s]; [|destruct (is_line_terminator c)];
      try destruct Hin as [<-|[]]; try exact Hg; destruct Hin.
  - destruct Hin as [<-|[]]. exact Hg.
Qed.


Lemma run_fills_group (r : regex) :
  fills_group r = true ->
  forall st st', In st' (run r st) -> group st' <> None.
Proof.
  induction r as [a|a|a|r1 IH1 r2 IH2|r IH|r IH| | |]; cbn [fills_group];
    try discriminate; intros Hf st st' Hin; cbn [run] in Hin.
  - apply in_flat_map in Hin. destruct Hin as (st1 & H1 & H2).
    destruct (fills_group r1) eqn:E1.
    + eapply run_keeps_group; [exact H2|]. eapply IH1; eauto.
    + simpl in Hf. eapply IH2; eauto.
  - apply in_map_iff in Hin. destruct Hin as (st1 & <- & _). discriminate.
Qed.

Lemma match_first_fills_group (r : regex) (text : jsstring) (m : mstate) :
  fills_group r = true -> match_first r text = Some m -> group m <> None.
Proof.
  intros Hf. unfold match_first.
  generalize (@None N) as p. induction text as [|c text IH]; intros p; simpl.
  - unfold exec_at. destruct (run r _) as [|st l] eqn:E; [discriminate|].
    simpl. intros Hm. injection Hm as <-.
    eapply (run_fills_group r Hf). rewrite E. now left.
  - unfold exec_at. destruct (run r _) as [|st l] eqn:E.
    + simpl. apply IH.
    + simpl. intros Hm. injection Hm as <-.
      eapply (run_fills_group r Hf). rewrite E. now left.
Qed.

(** The range the registry is tested against is the directive's range with
    its first space removed; reading the group never throws. *)
Lemma versionRange_directive (text : jsstring) :
  versionRange text =
  Ok (option_map (replace_first [space] []) (directive_range text)).
Proof.
  unfold versionRange, directive_range.
  destruct (match_first declarationRegex text) as [m|] eqn:E1.
  - pose proof (match_first_fills_group declarationRegex text m eq_refl E1) as Hg.
    destruct (group m); [reflexivity|congruence].
  - destruct (match_first commentRegex text) as [m|] eqn:E2; [|reflexivity].
    pose proof (match_first_fills_group commentRegex text m eq_refl E2) as Hg.
    destruct (group m); [reflexivity|congruence].
Qed.

Lemma strip_whitespace_id (X : jsstring) :
  (forall c, In c X -> is_whitespace c = false) -> strip_whitespace X = X.
Proof.
  induction X as [|c X IH]; intros Hc; [reflexivity|]. simpl.
  rewrite (Hc c) by now left. simpl. rewrite IH; [reflexivity|].
  intros d Hd. apply Hc. now right.
Qed.

(** On a range whose only whitespace is at most one space, removing the
    first space removes all whitespace. *)
Lemma replace_first_space_strips (X : jsstring) :
  (forall c, In c X -> is_whitespace c = true -> c = space) ->
  (count_occ N.eq_dec X space <= 1)%nat ->
  replace_first [space] [] X = strip_whitespace X.
Proof.
  induction X as [|c X IH]; intros Hws Hcount; [reflexivity|].
  cbn [replace_first starts_with].
  destruct (N.eqb_spec space c) as [<-|Hc].
  - cbn [andb app List.length skipn]. cbn [strip_whitespace filter].
    change (is_whitespace space) with true. cbn [negb].
    symmetry. apply strip_whitespace_id.
    intros d Hd. destruct (is_whitespace d) eqn:E; [|reflexivity].
    exfalso. assert (d = space) as -> by (apply Hws; [now right|exact E]).
    simpl in Hcount. destruct (N.eq_dec space space) as [_|Hn]; [|congruence].
    assert (count_occ N.eq_dec X space > 0)%nat by now apply count_occ_In.
    lia.
  - cbn [andb]. cbn [strip_whitespace filter].
    destruct (is_whitespace c) eqn:E.
    + exfalso. apply Hc. symmetry. apply Hws; [now left|exact E].
    + cbn [negb]. f_equal. apply IH.
      * intros d Hd. apply Hws. now right.
      * simpl in Hcount. destruct (N.eq_dec c space); [congruence|exact Hcount].
Qed.

(** *** Where the declaration expression matches *)

Lemma last_cons_default {A} (l : list A) :
  forall (x d d' : A), last (x :: l) d = last (x :: l) d'.
Proof.
  induction l as [|y l IH]; intros x d d'; [reflexivity|].
  change (last (x :: y :: l) d) with (last (y :: l) d).
  change (last (x :: y :: l) d') with (last (y :: l) d').
  apply IH.
Qed.

Lemma run_lits (l : jsstring) :
  forall p s g,
    run (lits l) (MState p (l ++ s) g)
    = [MState (last (List.map Some l) p) s g].
Proof.
  induction l as [|c l IH]; intros p s g; [reflexivity|].
  change (lits (c :: l)) with (Seq (Atom (Lit c)) (lits l)).
  change ((c :: l) ++ s) with (c :: l ++ s).
  rewrite run_seq_atom. cbn [atom_ok]. rewrite N.eqb_refl, IH.
  destruct l as [|d l]; [reflexivity|].
  cbn [List.map].
  change (last (Some c :: Some d :: List.map Some l) p)
    with (last (Some d :: List.map Some l) p).
  now rewrite (last_cons_default _ _ (Some c) p).
Qed.

Lemma starts_with_app (l s : jsstring) : starts_with l (l ++ s) = true.
Proof.
  induction l as [|c l IH]; [reflexivity|]. simpl. now rewrite N.eqb_refl.
Qed.

Lemma run_lits_fail (l : jsstring) :
  forall p s g, starts_with l s = false -> run (lits l) (MState p s g) = [].
Proof.
  induction l as [|c l IH]; intros p s g Hs; [discriminate|].
  change (lits (c :: l)) with (Seq (Atom (Lit c)) (lits l)).
  destruct s as [|d s]; [reflexivity|].
  rewrite run_seq_atom. cbn [atom_ok]. simpl in Hs.
  rewrite N.eqb_sym. destruct (N.eqb c d); [|reflexivity].
  apply IH. exact Hs.
Qed.

(** The greedy [.*] on a line: first the whole line, next all but its last
    unit. *)
Lemma star_any_line (Y : jsstring) :
  forall (c : N) (after : jsstring) (p : option N) (g : option jsstring),
    no_terminator Y -> is_line_terminator c = false -> line_end after ->
    exists tl,
      star Any p (Y ++ c :: after) g
      = MState (Some c) after g
        :: MState (last (List.map Some Y) p) (c :: after) g :: tl.
Proof.
  induction Y as [|y Y IH]; intros c after p g HY Hc Hafter.
  - exists []. cbn [app star atom_ok]. rewrite Hc. cbn [negb].
    destruct after as [|t after]; [reflexivity|].
    cbn [star atom_ok]. simpl in Hafter. rewrite Hafter. reflexivity.
  - inversion HY as [|? ? Hy HY']; subst.
    destruct (IH c after (Some y) g HY' Hc Hafter) as [tl E].
    cbn [app star atom_ok]. rewrite Hy. cbn [negb]. rewrite E.
    eexists. cbn [app List.map].
    destruct Y as [|y' Y]; [reflexivity|].
    cbn [List.map].
    change (last (Some y :: Some y' :: List.map Some Y) p)
      with (last (Some y' :: List.map Some Y) p).
    now rewrite (last_cons_default _ _ (Some y) p).
Qed.

Lemma firstn_length_diff (X s : jsstring) :
  firstn (List.length (X ++ s) - List.length s) (X ++ s) = X.
Proof.
  rewrite length_app.
  replace (List.length X + List.length s - List.length s)%nat
    with (List.length X) by lia.
  rewrite firstn_app, firstn_all, Nat.sub_diag. simpl. apply app_nil_r.
Qed.

Lemma dquote_after (after : jsstring) (p : option N) (g : option jsstring) :
  line_end after ->
  run (Seq (Atom (Lit dquote)) Eol) (MState p after g) = [].
Proof.
  destruct after as [|t after]; [reflexivity|]. cbn [line_end]. intros Ht.
  rewrite run_seq_atom. cbn [atom_ok].
  destruct (N.eqb_spec t dquote) as [->|_]; [discriminate|reflexivity].
Qed.

(** At the start of a line, the declaration expression matches a
    declaration line, and the group is the range between the quotes. *)
Lemma declaration_exec (p : option N) (X after : jsstring) :
  match p with None => True | Some c => is_line_terminator c = true end ->
  no_terminator X -> line_end after ->
  exec_at declarationRegex p (declaration_line X ++ after)
  = Some (MState (Some dquote) after (Some X)).
Proof.
  intros Hp HX Hafter. unfold exec_at, declarationRegex, declaration_line.
  rewrite run_seq.
  assert (Hbol : run Bol (MState p
                   ((str "concerto version " ++ dquote :: X ++ [dquote]) ++ after)
                   None)
                 = [MState p
                   ((str "concerto version " ++ dquote :: X ++ [dquote]) ++ after)
                   None]).
  { cbn [run prev]. destruct p as [c|]; [now rewrite Hp|reflexivity]. }
  rewrite Hbol. cbn [flat_map]. rewrite app_nil_r.
  rewrite run_seq. rewrite <- app_assoc. rewrite run_lits.
  cbn [flat_map]. rewrite app_nil_r.
  change ((dquote :: X ++ [dquote]) ++ after)
    with (dquote :: (X ++ [dquote]) ++ after).
  rewrite run_seq_atom. cbn [atom_ok]. rewrite N.eqb_refl.
  rewrite <- app_assoc. cbn [app].
  rewrite run_seq.
  change (run (Named (Star Any))
            (MState (Some dquote) (X ++ dquote :: after) None))
    with (List.map
            (fun st' =>
               MState (prev st') (rest st')
                 (Some (firstn (List.length (X ++ dquote :: after)
                                - List.length (rest st'))
                          (X ++ dquote :: after))))
            (star Any (Some dquote) (X ++ dquote :: after) None)).
  destruct (star_any_line X dquote after (Some dquote) None HX eq_refl Hafter)
    as [tl E].
  rewrite E. cbn [List.map flat_map prev rest].
  rewrite dquote_after by exact Hafter. cbn [app].
  rewrite run_seq_atom. cbn [atom_ok]. rewrite N.eqb_refl.
  rewrite (firstn_length_diff X (dquote :: after)).
  assert (Heol : forall g, run Eol (MState (Some dquote) after g)
                           = [MState (Some dquote) after g]).
  { intros g. cbn [run rest]. destruct after as [|t after]; [reflexivity|].
    simpl in Hafter. now rewrite Hafter. }
  rewrite Heol. reflexivity.
Qed.

(** Inside a line the expressions anchored at [^] do not match. *)
Lemma exec_at_inside_line (r : regex) (c : N) (s : jsstring) :
  is_line_terminator c = false -> exec_at (Seq Bol r) (Some c) s = None.
Proof.
  intros Hc. unfold exec_at. rewrite run_seq. cbn [run prev].
  now rewrite Hc.
Qed.

Lemma search_inside_line (r : regex) (l : jsstring) :
  forall (c t : N) (rest_ : jsstring),
    is_line_terminator c = false -> no_terminator l ->
    search (Seq Bol r) (Some c) (l ++ t :: rest_)
    = search (Seq Bol r) (Some t) rest_.
Proof.
  induction l as [|d l IH]; intros c t rest_ Hc Hl.
  - cbn [app search]. now rewrite exec_at_inside_line.
  - inversion Hl as [|? ? Hd Hl']; subst.
    cbn [app search]. rewrite exec_at_inside_line by exact Hc.
    now apply IH.
Qed.

(** A line the expression does not match at its start is passed over. *)
Lemma search_skips_line (r : regex) (p : option N) (l : jsstring) (t : N)
  (rest_ : jsstring) :
  no_terminator l ->
  exec_at (Seq Bol r) p (l ++ t :: rest_) = None ->
  search (Seq Bol r) p (l ++ t :: rest_) = search (Seq Bol r) (Some t) rest_.
Proof.
  intros Hl Hexec. destruct l as [|d l].
  - cbn [app search] in *. now rewrite Hexec.
  - inversion Hl as [|? ? Hd Hl']; subst.
    cbn [app search] in *. rewrite Hexec.
    now apply search_inside_line.
Qed.

Lemma starts_with_before_terminator (pre : jsstring) :
  forall (l : jsstring) (t : N) (rest_ : jsstring),
    no_terminator pre -> is_line_terminator t = true ->
    starts_with pre l = false ->
    starts_with pre (l ++ t :: rest_) = false.
Proof.
  induction pre as [|x pre IH]; intros l t rest_ Hpre Ht Hs; [discriminate|].
  inversion Hpre as [|? ? Hx Hpre']; subst.
  destruct l as [|y l]; cbn [app starts_with] in *.
  - destruct (N.eqb_spec x t) as [->|_]; [congruence|reflexivity].
  - destruct (N.eqb x y); [|reflexivity]. cbn [andb] in *. now apply IH.
Qed.

Lemma run_bol_cases (st : mstate) : run Bol st = [st] \/ run Bol st = [].
Proof.
  cbn [run]. destruct (prev st) as [c|]; [|now left].
  destruct (is_line_terminator c); [now left|now right].
Qed.

(** A line that does not start with [concerto version ] is passed over by
    the search for a declaration. *)
Lemma declaration_search_skips (p : option N) (l rest_ : jsstring) :
  no_terminator l ->
  starts_with (str "concerto version ") l = false ->
  search declarationRegex p (l ++ 10 :: rest_)
  = search declarationRegex (Some 10) rest_.
Proof.
  intros Hl Hs. apply search_skips_line; [exact Hl|].
  unfold exec_at, declarationRegex. rewrite run_seq.
  assert (Hfail : forall st : mstate,
             rest st = l ++ 10 :: rest_ ->
             run (Seq (lits (str "concerto version "))
                    (Seq (Atom (Lit dquote))
                       (Seq (Named (Star Any)) (Seq (Atom (Lit dquote)) Eol))))
               st = []).
  { intros [p' s' g'] E. cbn [rest] in E. subst s'.
    rewrite run_seq, run_lits_fail; [reflexivity|].
    apply starts_with_before_terminator; [|reflexivity|exact Hs].
    repeat constructor. }
  destruct (run_bol_cases (MState p (l ++ 10 :: rest_) None)) as [-> | ->];
    cbn [flat_map]; [|reflexivity].
  rewrite Hfail; reflexivity.
Qed.

Lemma search_hit (r : regex) (p : option N) (s : jsstring) (st : mstate) :
  exec_at r p s = Some st -> search r p s = Some (s, st).
Proof. intros E. destruct s; cbn [search]; now rewrite E. Qed.

(** The directive of a text whose first declaration line comes after lines
    that do not start with [concerto version ]: the range between the
    quotes of that line. *)
Lemma declaration_line_directive (lines : list jsstring) (X after : jsstring) :
  Forall (fun l => no_terminator l
                   /\ starts_with (str "concerto version ") l = false) lines ->
  no_terminator X -> line_end after ->
  directive_range (unlines lines ++ declaration_line X ++ after) = Some X.
Proof.
  intros Hlines HX Hafter. unfold directive_range, match_first.
  assert (Hs : forall p,
             match p with None => True | Some c => is_line_terminator c = true end ->
             search declarationRegex p
               (unlines lines ++ declaration_line X ++ after)
             = Some (declaration_line X ++ after,
                     MState (Some dquote) after (Some X))).
  { induction Hlines as [|l lines [Hl Hnot] _ IH]; intros p Hp.
    - cbn [unlines List.map List.concat app].
      apply search_hit. now apply declaration_exec.
    - unfold unlines. cbn [List.map List.concat]. rewrite <- !app_assoc.
      cbn [app]. rewrite declaration_search_skips by assumption.
      apply (IH (Some 10)). reflexivity. }
  rewrite (Hs None I). reflexivity.
Qed.

Section Resolver.
Context `{Semver}.

(** What [findCompatibleVersion] returns, in terms of the directive. *)
Lemma findCompatibleVersion_directive (reg : registry) (text : jsstring) :
  findCompatibleVersion reg text =
  Ok match option_map (replace_first [space] []) (directive_range text) with
     | Some ((_ :: _) as R) =>
         match first_satisfying reg R with
         | Some e => snd e
         | None => default_binding reg
         end
     | _ => default_binding reg
     end.
Proof.
  unfold findCompatibleVersion. rewrite versionRange_directive.
  unfold DEFAULT_CONCERTO_VERSION, default_binding, first_satisfying.
  destruct (option_map _ (directive_range text)) as [[|c R]|].
  - replace (find (entry_matches (Some [])) reg) with (@None (jsstring * jsval));
      [reflexivity|].
    induction reg as [|e reg IH]; [reflexivity|]. exact IH.
  - change (entry_matches (Some (c :: R)))
      with (fun entry : jsstring * jsval => satisfies (fst entry) (c :: R)).
    destruct (find _ reg); reflexivity.
  - replace (find (entry_matches None) reg) with (@None (jsstring * jsval));
      [reflexivity|].
    induction reg as [|e reg IH]; [reflexivity|]. exact IH.
Qed.

(** C2, as amended.  Take a source text whose version directive gives the
    range [X], with no whitespace in [X] but at most one space, and let [R]
    be [X] without that space.  If [R] is empty the default binding is
    returned.  Otherwise [findCompatibleVersion] returns the value of the
    first registry entry, in the registry's order, whose key satisfies [R],
    and the default binding if no entry does -- which is the case when [R]
    is not a valid range.  It never raises. *)
Theorem findCompatibleVersion_selects (reg : registry) (text X : jsstring) :
  directive_range text = Some X ->
  (forall c, In c X -> is_whitespace c = true -> c = space) ->
  (count_occ N.eq_dec X space <= 1)%nat ->
  let R := strip_whitespace X in
  findCompatibleVersion reg text =
    Ok match R with
       | [] => default_binding reg
       | _ :: _ =>
           match first_satisfying reg R with
           | Some e => snd e
           | None => default_binding reg
           end
       end
  /\ ((forall e, In e reg -> satisfies (fst e) R = false) ->
      findCompatibleVersion reg text = Ok (default_binding reg)).
Proof.
  intros Hd Hws Hcount R.
  assert (E : findCompatibleVersion reg text =
              Ok match R with
                 | [] => default_binding reg
                 | _ :: _ =>
                     match first_satisfying reg R with
                     | Some e => snd e
                     | None => default_binding reg
                     end
                 end).
  { rewrite findCompatibleVersion_directive, Hd. cbn [option_map].
    rewrite replace_first_space_strips by assumption. fold R.
    destruct R; reflexivity. }
  split; [exact E|].
  intros Hnone. rewrite E. destruct R as [|c R']; [reflexivity|].
  unfold first_satisfying.
  destruct (find _ reg) as [e|] eqn:Ef; [|reflexivity].
  apply find_some in Ef. destruct Ef as [Hin Hs].
  rewrite (Hnone e Hin) in Hs. discriminate.
Qed.

(** A text without a version directive gets the default binding. *)
Lemma findCompatibleVersion_no_directive (reg : registry) (text : jsstring) :
  directive_range text = None ->
  findCompatibleVersion reg text = Ok (default_binding reg).
Proof.
  intros Hd. now rewrite findCompatibleVersion_directive, Hd.
Qed.

End Resolver.

(** ** C9 *)

(** C9, what the script does.  Line 221 calls [replace] with a string
    pattern, which replaces one occurrence: of the range
    [>= 1.0.0 < 2.0.0] only the first space goes, and the range tested still
    holds two, where the claim has [>=1.0.0<2.0.0] tested. *)
Theorem only_first_space_is_removed :
  directive_range Sample.two_spaces_text = Some (str ">= 1.0.0 < 2.0.0")
  /\ versionRange Sample.two_spaces_text = Ok (Some (str ">=1.0.0 < 2.0.0"))
  /\ strip_whitespace (str ">= 1.0.0 < 2.0.0") = str ">=1.0.0<2.0.0"
  /\ str ">=1.0.0 < 2.0.0" <> str ">=1.0.0<2.0.0".
Proof.
  repeat split; try reflexivity. discriminate.
Qed.

(** ** C1 *)

(** In the reference model of [semver], a version of the [0.82.x] line is at
    or below [3.0.0]. *)
Lemma legacy_line_below_threshold (v : jsstring) :
  @satisfies node_semver v (str "0.82.x") = true ->
  @lte node_semver v (str "3.0.0") = Some true.
Proof.
  cbn [satisfies lte node_semver].
  unfold NodeSemver.node_satisfies, NodeSemver.node_lte.
  change (NodeSemver.parse_range (str "0.82.x"))
    with (Some [[NodeSemver.ge 0 82 0 []; NodeSemver.lt0 0 83 0]]).
  change (NodeSemver.parse (str "3.0.0"))
    with (Some (NodeSemver.Version 3 0 0 [])).
  destruct (NodeSemver.parse v) as [ver|]; [|discriminate].
  cbn [existsb]. rewrite orb_false_r.
  unfold NodeSemver.test_set. cbn [forallb NodeSemver.test_comparator
    NodeSemver.ge NodeSemver.lt0].
  intros Ht. apply andb_prop in Ht. destruct Ht as [Ht _].
  apply andb_prop in Ht. destruct Ht as [_ Ht].
  apply andb_prop in Ht. destruct Ht as [Ht _].
  unfold NodeSemver.cmp in Ht.
  destruct (NodeSemver.compare ver _) eqn:Ec; try discriminate.
  unfold NodeSemver.compare, NodeSemver.compare_main in *.
  cbn [NodeSemver.major NodeSemver.minor NodeSemver.patch] in *.
  destruct (N.compare_spec (NodeSemver.major ver) 0) as [E|E|E].
  - rewrite E. reflexivity.
  - lia.
  - discriminate.
Qed.

Lemma nth_length_app {A} (l : list A) (x : A) (l' : list A) (d : A) :
  nth (List.length l) (l ++ x :: l') d = x.
Proof. induction l; simpl; auto. Qed.

Lemma update_nth_length_app {A} (f : A -> A) (l : list A) (x : A) (l' : list A) :
  update_nth (List.length l) f (l ++ x :: l') = l ++ f x :: l'.
Proof. induction l; simpl; [reflexivity|]. now f_equal. Qed.

Section Container.
Variable env : Env.

(** C1, what the script does.  For a binding of the [0.82.x] line the
    system model is added to the container constructed first; but that line
    is also at or below [3.0.0], so line 262 constructs a second, strict
    container and hands that one on.  The container the file's model is
    compiled with and registered in is the second one, which does not hold
    the system model; the first is dropped. *)
Theorem system_model_container_is_replaced (b : Binding) (w : World)
  (systemModel : jsstring) :
  @satisfies node_semver (concertoVersion b) (str "0.82.x") = true ->
  readFileSync env (rootDir env ++ str "/cicero/base.cto") = Ok systemModel ->
  addModelFile b (MkModelManager false [])
    (AddSystemModel systemModel (str "base.cto")) = None ->
  let first := List.length (w_managers w) in
  let w' := snd (@setupModelManager node_semver env b w) in
  fst (@setupModelManager node_semver env b w) = Ok (S first)
  /\ manager_at w' first = MkModelManager false [str "base.cto"]
  /\ manager_at w' (S first) = MkModelManager true []
  /\ ~ In (str "base.cto") (mm_files (manager_at w' (S first))).
Proof.
  intros Hsat Hread Hadd first w'.
  assert (E : @setupModelManager node_semver env b w =
              (Ok (S first),
               MkWorld
                 (w_managers w
                  ++ [MkModelManager false [str "base.cto"];
                      MkModelManager true []])
                 (w_disk w) (w_dirs w) (w_log w) (w_index w))).
  { unfold setupModelManager. rewrite Hsat.
    rewrite (legacy_line_below_threshold _ Hsat).
    unfold bind at 1. unfold new_ModelManager at 1. cbv beta iota.
    unfold bind at 1. unfold bind at 1. unfold lift at 1. rewrite Hread.
    cbv beta iota.
    unfold do_addModelFile, bind, deref, lift_void. cbn [w_managers].
    rewrite nth_length_app.
    rewrite Hadd. cbn [w_managers w_disk w_dirs w_log w_index].
    unfold new_ModelManager. cbn [w_managers w_disk w_dirs w_log w_index].
    rewrite update_nth_length_app. cbn [mm_strict mm_files app].
    rewrite length_app. cbn [List.length]. rewrite Nat.add_1_r.
    rewrite <- app_assoc. reflexivity. }
  subst w'. rewrite E. cbn [fst snd]. unfold manager_at. cbn [w_managers].
  split; [reflexivity|].
  split; [subst first; apply nth_length_app|].
  assert (E2 : nth (S first)
                 (w_managers w
                  ++ [MkModelManager false [str "base.cto"];
                      MkModelManager true []]) empty_manager
               = MkModelManager true []).
  { change (w_managers w
            ++ [MkModelManager false [str "base.cto"]; MkModelManager true []])
      with (w_managers w
            ++ [MkModelManager false [str "base.cto"]] ++ [MkModelManager true []]).
    rewrite app_assoc.
    replace (S first) with (List.length (w_managers w ++ [MkModelManager false [str "base.cto"]])).
    - apply nth_length_app.
    - rewrite length_app. simpl. subst first. lia. }
  rewrite E2. split; [reflexivity|]. intros [].
Qed.

End Container.

(** ** Computations and what they keep *)

Lemma bind_ok {A B} (c : M A) (k : A -> M B) (w w1 : World) (a : A) :
  c w = (Ok a, w1) -> bind c k w = k a w1.
Proof. intros E. unfold bind. now rewrite E. Qed.

Lemma bind_throw {A B} (c : M A) (k : A -> M B) (w w1 : World) (e : exn) :
  c w = (Throw e, w1) -> bind c k w = (Throw e, w1).
Proof. intros E. unfold bind. now rewrite E. Qed.

Lemma with_writes_nil (w : World) : with_writes w [] = w.
Proof. destruct w; reflexivity. Qed.

Lemma with_writes_app (w : World) (l1 l2 : list (jsstring * fileData)) :
  with_writes (with_writes w l1) l2 = with_writes w (l2 ++ l1).
Proof. unfold with_writes; simpl. now rewrite app_assoc. Qed.

Section Keeps.
Context {R : World -> World -> Prop}.
Hypothesis R_refl : forall w, R w w.
Hypothesis R_trans : forall w1 w2 w3, R w1 w2 -> R w2 w3 -> R w1 w3.

Lemma keeps_ret {A} (a : A) : keeps R (ret a).
Proof. intro w. apply R_refl. Qed.

Lemma keeps_throw {A} (e : exn) : keeps R (@throw A e).
Proof. intro w. apply R_refl. Qed.

Lemma keeps_lift {A} (r : result A) : keeps R (lift r).
Proof. intro w. apply R_refl. Qed.

Lemma keeps_lift_void (r : option exn) : keeps R (lift_void r).
Proof. intro w. unfold lift_void. destruct r; apply R_refl. Qed.

Lemma keeps_deref (r : nat) : keeps R (deref r).
Proof. intro w. apply R_refl. Qed.

Lemma keeps_message_text (use : jsstring + exn) : keeps R (message_text use).
Proof. intro w. unfold message_text. destruct use; apply R_refl. Qed.

Lemma keeps_bind {A B} (c : M A) (k : A -> M B) :
  keeps R c -> (forall a, keeps R (k a)) -> keeps R (bind c k).
Proof.
  intros Hc Hk w. unfold bind. specialize (Hc w).
  destruct (c w) as [[a|e] w1]; simpl in *.
  - eapply R_trans; [exact Hc|apply Hk].
  - exact Hc.
Qed.

Lemma keeps_try_catch {A} (c : M A) (h : exn -> M A) :
  keeps R c -> (forall e, keeps R (h e)) -> keeps R (try_catch c h).
Proof.
  intros Hc Hh w. unfold try_catch. specialize (Hc w).
  destruct (c w) as [[a|e] w1]; simpl in *.
  - exact Hc.
  - eapply R_trans; [exact Hc|apply Hh].
Qed.

End Keeps.

(** A computation that keeps [R1], followed by one that keeps [R2]. *)
Lemma keeps_bind_then {A B} (R1 R2 R3 : World -> World -> Prop)
  (c : M A) (k : A -> M B) :
  (forall w w', R1 w w' -> R3 w w') ->
  (forall w w' w'', R1 w w' -> R2 w' w'' -> R3 w w'') ->
  keeps R1 c -> (forall a, keeps R2 (k a)) -> keeps R3 (bind c k).
Proof.
  intros H13 H123 Hc Hk w. unfold bind. specialize (Hc w).
  destruct (c w) as [[a|e] w1]; simpl in *.
  - eapply H123; [exact Hc|apply Hk].
  - apply H13, Hc.
Qed.

Lemma outputs_kept_refl w : outputs_kept w w.
Proof. split; reflexivity. Qed.

Lemma outputs_kept_trans w1 w2 w3 :
  outputs_kept w1 w2 -> outputs_kept w2 w3 -> outputs_kept w1 w3.
Proof. intros [A B] [C D]. split; congruence. Qed.


Lemma keeps_console_log (l : logLine) : keeps outputs_kept (console_log l).
Proof. intro w. split; reflexivity. Qed.

Lemma keeps_make_dir (d : jsstring) : keeps outputs_kept (make_dir d).
Proof. intro w. split; reflexivity. Qed.

Lemma keeps_new_ModelManager (strict : bool) :
  keeps outputs_kept (new_ModelManager strict).
Proof. intro w. split; reflexivity. Qed.

Lemma keeps_do_addModelFile (b : Binding) (r : nat) (call : addCall) :
  keeps outputs_kept (do_addModelFile b r call).
Proof.
  unfold do_addModelFile.
  apply (keeps_bind outputs_kept_trans);
    [apply (keeps_deref outputs_kept_refl)|intros mm].
  apply (keeps_bind outputs_kept_trans);
    [apply (keeps_lift_void outputs_kept_refl)|intros _].
  intro w. split; reflexivity.
Qed.

(** The catch clause of a file's turn (lines 344-346) logs, and may throw;
    it writes nothing. *)
Lemma keeps_catch_clause (file : jsstring) (err : exn) :
  keeps outputs_kept (reportError file err).
Proof.
  unfold reportError.
  apply (keeps_bind outputs_kept_trans); [apply keeps_console_log|intros _].
  apply (keeps_bind outputs_kept_trans);
    [apply (keeps_message_text outputs_kept_refl)|intros message].
  apply (keeps_bind outputs_kept_trans); [apply keeps_console_log|intros _].
  apply (keeps_bind outputs_kept_trans);
    [apply (keeps_lift_void outputs_kept_refl)|intros _].
  apply keeps_console_log.
Qed.

(** *** What computations do to the console *)

Lemma log_extends_refl w : log_extends w w.
Proof. now exists []. Qed.

Lemma log_extends_trans w1 w2 w3 :
  log_extends w1 w2 -> log_extends w2 w3 -> log_extends w1 w3.
Proof.
  intros [l E] [l' E']. exists (l' ++ l). rewrite E', E. now rewrite app_assoc.
Qed.

Lemma logs_extends P w w' : logs P w w' -> log_extends w w'.
Proof. intros (lines & E & _). now exists lines. Qed.

Lemma extends_then_logs P w1 w2 w3 :
  log_extends w1 w2 -> logs P w2 w3 -> logs P w1 w3.
Proof.
  intros [l E] (l' & E' & line & Hin & HP). exists (l' ++ l). split.
  - rewrite E', E. now rewrite app_assoc.
  - exists line. split; [apply in_or_app; now left|exact HP].
Qed.

Lemma logs_then_extends P w1 w2 w3 :
  logs P w1 w2 -> log_extends w2 w3 -> logs P w1 w3.
Proof.
  intros (l & E & line & Hin & HP) [l' E']. exists (l' ++ l). split.
  - rewrite E', E. now rewrite app_assoc.
  - exists line. split; [apply in_or_app; now right|exact HP].
Qed.

Lemma keeps_log_bind {A B} (c : M A) (k : A -> M B) :
  keeps log_extends c -> (forall a, keeps log_extends (k a)) ->
  keeps log_extends (bind c k).
Proof. apply (keeps_bind log_extends_trans). Qed.

Lemma keeps_log_try_catch {A} (c : M A) (h : exn -> M A) :
  keeps log_extends c -> (forall e, keeps log_extends (h e)) ->
  keeps log_extends (try_catch c h).
Proof. apply (keeps_try_catch log_extends_trans). Qed.

Lemma keeps_log_console_log (l : logLine) : keeps log_extends (console_log l).
Proof. intro w. now exists [l]. Qed.

Lemma keeps_log_write_disk (path : jsstring) (d : fileData) :
  keeps log_extends (write_disk path d).
Proof. intro w. now exists []. Qed.

Lemma keeps_log_make_dir (path : jsstring) : keeps log_extends (make_dir path).
Proof. intro w. now exists []. Qed.

Lemma keeps_log_push_index (e : IndexEntry) : keeps log_extends (push_index e).
Proof. intro w. now exists []. Qed.

Lemma keeps_log_new_ModelManager (strict : bool) :
  keeps log_extends (new_ModelManager strict).
Proof. intro w. now exists []. Qed.

(** The steps of a computation, one after another, each adding to the
    console at most. *)
Ltac keeps_log :=
  repeat match goal with
         | |- keeps log_extends (bind _ _) => apply keeps_log_bind; [|intros ?]
         | |- keeps log_extends (try_catch _ _) =>
             apply keeps_log_try_catch; [|intros ?]
         | |- keeps log_extends (if ?c then _ else _) => destruct c
         | |- keeps log_extends (match ?c with _ => _ end) => destruct c
         | |- keeps log_extends (ret _) => apply (keeps_ret log_extends_refl)
         | |- keeps log_extends (throw _) => apply (keeps_throw log_extends_refl)
         | |- keeps log_extends (lift _) => apply (keeps_lift log_extends_refl)
         | |- keeps log_extends (lift_void _) =>
             apply (keeps_lift_void log_extends_refl)
         | |- keeps log_extends (deref _) => apply (keeps_deref log_extends_refl)
         | |- keeps log_extends (message_text _) =>
             apply (keeps_message_text log_extends_refl)
         | |- keeps log_extends (console_log _) => apply keeps_log_console_log
         | |- keeps log_extends (write_disk _ _) => apply keeps_log_write_disk
         | |- keeps log_extends (make_dir _) => apply keeps_log_make_dir
         | |- keeps log_extends (push_index _) => apply keeps_log_push_index
         | |- keeps log_extends (new_ModelManager _) =>
             apply keeps_log_new_ModelManager
         end.

Lemma keeps_log_do_addModelFile (b : Binding) (r : nat) (call : addCall) :
  keeps log_extends (do_addModelFile b r call).
Proof. unfold do_addModelFile. keeps_log. intro w. now exists []. Qed.

Lemma keeps_log_reportError (file : jsstring) (err : exn) :
  keeps log_extends (reportError file err).
Proof. unfold reportError. keeps_log. Qed.

(** The catch clause of a turn names the file first. *)
Lemma reportError_logs (file : jsstring) (err : exn) (w : World) :
  logs (eq (LogErrorHandling file)) w (snd (reportError file err w)).
Proof.
  unfold reportError. unfold bind at 1. unfold console_log at 1.
  cbv beta iota.
  match goal with
  | |- logs _ _ (snd (?c ?w0)) =>
      assert (Hk : keeps log_extends c) by keeps_log;
      destruct (Hk w0) as [lines E]
  end.
  exists (lines ++ [LogErrorHandling file]). split.
  - rewrite E. cbn [w_log]. now rewrite <- app_assoc.
  - exists (LogErrorHandling file). split; [|reflexivity].
    apply in_or_app. right. now left.
Qed.

(** ** The archive sink and [generate] *)

(** What the sink does to the world: it writes the archive after each unit
    closed, and nothing else. *)
Lemma accept_writes (path visitorName : jsstring) (ops : list sinkOp) :
  forall (fw : FileWriter) (zip : list zipEntry) (w : World),
    snd (accept path visitorName ops fw zip w) =
    with_writes w
      (rev (List.map (fun z => (path, Zip z))
              (archive_writes visitorName ops fw zip))).
Proof.
  induction ops as [|op ops IH]; intros fw zip w.
  - simpl. now rewrite with_writes_nil.
  - destruct op as [n|tabs text| |e]; cbn [accept archive_writes].
    + apply IH.
    + destruct (truthy (fileName fw)); [apply IH|].
      simpl. now rewrite with_writes_nil.
    + destruct (fileName fw) as [[|c n]|].
      * simpl. now rewrite with_writes_nil.
      * unfold bind, write_disk. rewrite IH. cbn [List.map rev].
        unfold with_writes; simpl. now rewrite <- app_assoc.
      * simpl. now rewrite with_writes_nil.
    + simpl. now rewrite with_writes_nil.
Qed.


(** What the sink itself throws are errors. *)
Lemma accept_throws (path visitorName : jsstring) (ops : list sinkOp) :
  forall (fw : FileWriter) (zip : list zipEntry) (w w' : World) (e : exn),
    accept path visitorName ops fw zip w = (Throw e, w') ->
    In (Raise e) ops \/ with_message e.
Proof.
  induction ops as [|op ops IH]; intros fw zip w w' e; [discriminate|].
  destruct op as [n|tabs text| |e']; cbn [accept].
  - intros E. apply IH in E. destruct E; [left; now right|now right].
  - destruct (truthy (fileName fw)).
    + intros E. apply IH in E. destruct E; [left; now right|now right].
    + intros E. injection E as <- _. right. eexists. reflexivity.
  - destruct (fileName fw) as [[|c n]|].
    + intros E. injection E as <- _. right. eexists. reflexivity.
    + unfold bind, write_disk. intros E. apply IH in E.
      destruct E; [left; now right|now right].
    + intros E. injection E as <- _. right. eexists. reflexivity.
  - intros E. injection E as <- _. left. now left.
Qed.

(** [generate] leaves the archive writes of its traversal.  It returns when
    the traversal does; when the traversal throws it logs the message and
    returns, or -- the message being out of reach -- throws what the catch
    clause throws. *)
Lemma generate_result (b : Binding)
  (visitorName ext_ buildDir_ destPath fileNameNoExt : jsstring) (mm : nat)
  (w : World) :
  let w1 :=
    with_writes w
      (generate_writes b visitorName (zip_path destPath fileNameNoExt ext_)
         (manager_at w mm)) in
  generate b visitorName ext_ buildDir_ destPath fileNameNoExt mm w = (Ok tt, w1)
  \/ (exists message,
         generate b visitorName ext_ buildDir_ destPath fileNameNoExt mm w =
         (Ok tt,
          with_log w1
            (LogGenerating visitorName destPath fileNameNoExt message)))
  \/ (exists traversal e e',
         CodeGen b visitorName = Some traversal
         /\ fst (accept (zip_path destPath fileNameNoExt ext_) visitorName
                   (traversal (manager_at w mm)) (MkFileWriter None []) [] w)
            = Throw e
         /\ in_template e = inr e'
         /\ generate b visitorName ext_ buildDir_ destPath fileNameNoExt mm w =
            (Throw e', w1)).
Proof.
  unfold generate, generate_writes, try_catch.
  destruct (CodeGen b visitorName) as [traversal|].
  - change ((mm0 <- deref mm ;;
             accept (zip_path destPath fileNameNoExt ext_) visitorName
               (traversal mm0) (MkFileWriter None []) []) w)
      with (accept (zip_path destPath fileNameNoExt ext_) visitorName
              (traversal (manager_at w mm)) (MkFileWriter None []) [] w).
    pose proof (accept_writes (zip_path destPath fileNameNoExt ext_) visitorName
                  (traversal (manager_at w mm)) (MkFileWriter None []) [] w) as Hw.
    destruct (accept _ _ _ _ _ w) as [[[]|e] w'] eqn:E; simpl in Hw; subst w'.
    + left. reflexivity.
    + unfold bind, message_text, console_log.
      destruct (in_template e) as [message|e'] eqn:Em.
      * right. left. exists message. reflexivity.
      * right. right. exists traversal, e, e'.
        split; [reflexivity|]. split; [now rewrite E|].
        split; [exact Em|reflexivity].
  - left. simpl. now rewrite with_writes_nil.
Qed.

Lemma grows_refl (w : World) : grows w w.
Proof. repeat split. now exists []. Qed.

Lemma grows_trans (w1 w2 w3 : World) : grows w1 w2 -> grows w2 w3 -> grows w1 w3.
Proof.
  intros (A & B & l & C) (D & E & l' & F). repeat split; try congruence.
  exists (l' ++ l). rewrite F, C. apply app_assoc.
Qed.

Lemma grows_with_writes (w : World) l : grows w (with_writes w l).
Proof. repeat split. now exists l. Qed.

Lemma grows_with_log (w : World) l : grows w (with_log w l).
Proof. repeat split. now exists []. Qed.

Lemma grows_In (w w' : World) x : grows w w' -> In x (w_disk w) -> In x (w_disk w').
Proof. intros (_ & _ & l & E) Hin. rewrite E. apply in_or_app. now right. Qed.

Lemma grows_manager_at (w w' : World) (r : nat) :
  grows w w' -> manager_at w' r = manager_at w r.
Proof. intros (E & _). unfold manager_at. now rewrite E. Qed.

Lemma generate_grows (b : Binding)
  (visitorName ext_ buildDir_ destPath fileNameNoExt : jsstring) (mm : nat)
  (w : World) :
  let result :=
    generate b visitorName ext_ buildDir_ destPath fileNameNoExt mm w in
  grows w (snd result)
  /\ forall x,
       In x (generate_writes b visitorName
               (zip_path destPath fileNameNoExt ext_) (manager_at w mm)) ->
       In x (w_disk (snd result)).
Proof.
  destruct (generate_result b visitorName ext_ buildDir_ destPath fileNameNoExt
              mm w) as [E|[[message E]|(t & e & e' & _ & _ & _ & E)]];
    cbv zeta; rewrite E; cbn [snd].
  - split; [apply grows_with_writes|].
    intros x Hx. simpl. apply in_or_app. now left.
  - split.
    + eapply grows_trans; [apply grows_with_writes|apply grows_with_log].
    + intros x Hx. simpl. apply in_or_app. now left.
  - split; [apply grows_with_writes|].
    intros x Hx. simpl. apply in_or_app. now left.
Qed.

(** A traversal that throws values with a message only: [generate]
    returns. *)
Lemma generate_returns (b : Binding)
  (visitorName ext_ buildDir_ destPath fileNameNoExt : jsstring) (mm : nat)
  (w : World) :
  (forall traversal,
      CodeGen b visitorName = Some traversal ->
      raises_with_message (traversal (manager_at w mm))) ->
  fst (generate b visitorName ext_ buildDir_ destPath fileNameNoExt mm w)
  = Ok tt.
Proof.
  intros Hraise.
  destruct (generate_result b visitorName ext_ buildDir_ destPath fileNameNoExt
              mm w) as [E|[[message E]|(t & e & e' & Ht & Ha & Hm & E)]];
    try (rewrite E; reflexivity).
  exfalso.
  destruct (accept _ _ (t (manager_at w mm)) _ _ w) as [r w'] eqn:Eacc.
  cbn [fst] in Ha. subst r. apply accept_throws in Eacc.
  destruct Eacc as [Hin|[message Hmsg]].
  - destruct (Hraise t Ht e Hin) as [message Hmsg]. congruence.
  - congruence.
Qed.

Lemma eqb_eq (a b : jsstring) : JS.eqb a b = true <-> a = b.
Proof.
  revert b. induction a as [|x a IH]; intros [|y b]; simpl;
    try (split; [discriminate|discriminate]); try tauto.
  rewrite andb_true_iff, N.eqb_eq, IH. split.
  - intros [-> ->]. reflexivity.
  - intros E. injection E as -> ->. auto.
Qed.

Lemma eqb_refl (a : jsstring) : JS.eqb a a = true.
Proof. now apply eqb_eq. Qed.

Lemma eqb_neq (a b : jsstring) : a <> b -> JS.eqb a b = false.
Proof.
  intros Hne. destruct (JS.eqb a b) eqn:E; [|reflexivity].
  apply eqb_eq in E. contradiction.
Qed.

(** ** C7 *)

(** C7, as amended.  Whatever the binding, the visitor key and the
    container, [generate] does not raise as long as what its traversal
    throws -- if it throws -- is a value whose message can be read into the
    log line of line 156, as every [Error] is.  Without a constructor under
    the visitor key it leaves the world as it was (no archive, no console
    line); a throw of the traversal ends up in one console line and is not
    passed on. *)
Theorem generate_never_raises (b : Binding)
  (visitorName ext_ buildDir_ destPath fileNameNoExt : jsstring) (mm : nat)
  (w : World) :
  (forall traversal,
      CodeGen b visitorName = Some traversal ->
      raises_with_message (traversal (manager_at w mm))) ->
  fst (generate b visitorName ext_ buildDir_ destPath fileNameNoExt mm w) = Ok tt
  /\ (CodeGen b visitorName = None ->
      generate b visitorName ext_ buildDir_ destPath fileNameNoExt mm w
      = (Ok tt, w))
  /\ (forall traversal e w1,
        CodeGen b visitorName = Some traversal ->
        accept (zip_path destPath fileNameNoExt ext_) visitorName
          (traversal (manager_at w mm)) (MkFileWriter None []) [] w
        = (Throw e, w1) ->
        exists message,
          in_template e = inl message
          /\ generate b visitorName ext_ buildDir_ destPath fileNameNoExt mm w
             = (Ok tt,
                with_log w1
                  (LogGenerating visitorName destPath fileNameNoExt message))).
Proof.
  intros Hraise. split; [|split].
  - now apply generate_returns.
  - intros Hnone. unfold generate, try_catch. now rewrite Hnone.
  - intros traversal e w1 Hsome Hthrow.
    assert (Hmsg : with_message e).
    { destruct (accept_throws _ _ _ _ _ _ _ _ Hthrow) as [Hin|Hmsg];
        [exact (Hraise traversal Hsome e Hin)|exact Hmsg]. }
    destruct Hmsg as [message Hmsg]. exists message. split; [exact Hmsg|].
    unfold generate, try_catch. rewrite Hsome.
    change ((mm0 <- deref mm ;;
             accept (zip_path destPath fileNameNoExt ext_) visitorName
               (traversal mm0) (MkFileWriter None []) []) w)
      with (accept (zip_path destPath fileNameNoExt ext_) visitorName
              (traversal (manager_at w mm)) (MkFileWriter None []) [] w).
    rewrite Hthrow. unfold bind, message_text, console_log.
    rewrite Hmsg. reflexivity.
Qed.

(** ** C5 *)

Lemma archive_writes_lines (v : jsstring) (lines : list jsstring) :
  forall (ops : list sinkOp) (n buf : jsstring) (zip : list zipEntry),
    n <> [] ->
    archive_writes v (List.map (WriteLine 0) lines ++ ops)
      (MkFileWriter (Some n) buf) zip =
    archive_writes v ops (MkFileWriter (Some n) (buf ++ unit_text lines)) zip.
Proof.
  induction lines as [|l lines IH]; intros ops n buf zip Hn.
  - simpl. unfold unit_text. simpl. now rewrite app_nil_r.
  - cbn [List.map app archive_writes fileName buffer].
    destruct n as [|c n]; [congruence|]. cbn [truthy].
    rewrite IH by discriminate. unfold unit_text. simpl.
    now rewrite <- !app_assoc.
Qed.

Lemma archive_writes_unit (v n : jsstring) (lines : list jsstring)
  (ops : list sinkOp) (zip : list zipEntry) (old : option jsstring) :
  n <> [] ->
  let zip' :=
    zip_addFile zip
      (MkEntry n
         (Buffer_alloc (List.length (unit_text lines)) (unit_text lines))
         (str "Generated by " ++ v)) in
  archive_writes v (output_unit n lines ++ ops) (MkFileWriter old []) zip =
  zip' :: archive_writes v ops (MkFileWriter None []) zip'.
Proof.
  intros Hn. unfold output_unit.
  cbn [app archive_writes buffer]. rewrite <- app_assoc.
  rewrite archive_writes_lines by exact Hn.
  cbn [app archive_writes fileName buffer].
  destruct n as [|c n]; [congruence|]. reflexivity.
Qed.

(** Nothing is written any more once no unit gets closed before the
    traversal throws. *)
Lemma archive_writes_unfinished (v : jsstring) (third : list sinkOp) :
  Forall (fun op => op <> CloseFile) third ->
  forall (e : exn) (rest_ : list sinkOp) (fw : FileWriter) (zip : list zipEntry),
    archive_writes v (third ++ Raise e :: rest_) fw zip = [].
Proof.
  induction 1 as [|op third Hop _ IH]; intros e rest_ fw zip.
  - reflexivity.
  - destruct op as [n|tabs text| |e']; cbn [app archive_writes].
    + apply IH.
    + destruct (truthy (fileName fw)); [apply IH|reflexivity].
    + congruence.
    + reflexivity.
Qed.

(** C5.  The overridden [closeFile] writes the archive to disk after every
    unit it inserts.  So when a traversal writes two units and then throws
    before closing a third, the disk has two archive writes at the
    generator's path: after the first unit the archive with that unit, after
    the second -- the one that stays -- the archive with exactly the first
    two units. *)
Theorem partial_archive_is_persisted (b : Binding)
  (visitorName ext_ buildDir_ destPath fileNameNoExt : jsstring) (mm : nat)
  (w : World) (traversal : ModelManagerObj -> list sinkOp)
  (name1 name2 : jsstring) (lines1 lines2 : list jsstring)
  (third rest_ : list sinkOp) (e : exn) :
  CodeGen b visitorName = Some traversal ->
  traversal (manager_at w mm) =
    output_unit name1 lines1 ++ output_unit name2 lines2
    ++ third ++ Raise e :: rest_ ->
  Forall (fun op => op <> CloseFile) third ->
  name1 <> [] -> name2 <> [] -> name1 <> name2 ->
  let unit1 :=
    MkEntry name1
      (Buffer_alloc (List.length (unit_text lines1)) (unit_text lines1))
      (str "Generated by " ++ visitorName) in
  let unit2 :=
    MkEntry name2
      (Buffer_alloc (List.length (unit_text lines2)) (unit_text lines2))
      (str "Generated by " ++ visitorName) in
  let path := zip_path destPath fileNameNoExt ext_ in
  let w' :=
    snd (generate b visitorName ext_ buildDir_ destPath fileNameNoExt mm w) in
  w_disk w' = (path, Zip [unit1; unit2]) :: (path, Zip [unit1]) :: w_disk w
  /\ read_disk (w_disk w') path = Some (Zip [unit1; unit2]).
Proof.
  intros Hsome Hops Hthird Hn1 Hn2 Hne unit1 unit2 path w'.
  assert (Hdisk : w_disk w' =
                  (path, Zip [unit1; unit2]) :: (path, Zip [unit1]) :: w_disk w).
  { subst w'.
    assert (Hw : generate_writes b visitorName path (manager_at w mm)
                 = [(path, Zip [unit1; unit2]); (path, Zip [unit1])]).
    { unfold generate_writes, zip_writes. rewrite Hsome, Hops.
      rewrite archive_writes_unit by exact Hn1.
      rewrite archive_writes_unit by exact Hn2.
      rewrite archive_writes_unfinished by exact Hthird.
      cbn [zip_addFile entryName]. rewrite (eqb_neq _ _ Hne). reflexivity. }
    destruct (generate_result b visitorName ext_ buildDir_ destPath
                fileNameNoExt mm w)
      as [E|[[message E]|(t & e0 & e' & _ & _ & _ & E)]];
      rewrite E; fold path; rewrite Hw; reflexivity. }
  split; [exact Hdisk|].
  rewrite Hdisk. cbn [read_disk]. now rewrite eqb_refl.
Qed.

(** ** A file's turn of the loop *)

Section Legacy.
Context `{Semver} `{Collator}.
Variable env : Env.

Lemma keeps_setupModelManager (b : Binding) :
  keeps outputs_kept (setupModelManager env b).
Proof.
  unfold setupModelManager.
  apply (keeps_bind outputs_kept_trans);
    [apply keeps_new_ModelManager|intros mm].
  apply (keeps_bind outputs_kept_trans).
  - destruct (satisfies _ _).
    + apply (keeps_bind outputs_kept_trans);
        [apply (keeps_lift outputs_kept_refl)|intros s].
      apply keeps_do_addModelFile.
    + apply (keeps_ret outputs_kept_refl).
  - intros _. destruct (lte _ _) as [[|]|].
    + apply keeps_new_ModelManager.
    + apply (keeps_ret outputs_kept_refl).
    + apply (keeps_throw outputs_kept_refl).
Qed.

Lemma keeps_compileModel (b : Binding) (mm : nat) (text file : jsstring) :
  keeps outputs_kept (compileModel b mm text file).
Proof.
  unfold compileModel.
  apply (keeps_bind outputs_kept_trans);
    [apply (keeps_deref outputs_kept_refl)|intros m].
  apply (keeps_bind outputs_kept_trans).
  - destruct (satisfies _ _).
    + apply (keeps_lift outputs_kept_refl).
    + apply (keeps_bind outputs_kept_trans);
        [apply (keeps_lift outputs_kept_refl)|intros s].
      apply (keeps_lift outputs_kept_refl).
  - intros names. apply (keeps_ret outputs_kept_refl).
Qed.

Lemma keeps_fs_ensureDir (d : jsstring) : keeps outputs_kept (fs_ensureDir env d).
Proof.
  unfold fs_ensureDir.
  apply (keeps_bind outputs_kept_trans);
    [apply (keeps_lift_void outputs_kept_refl)|intros _].
  apply keeps_make_dir.
Qed.

Lemma fs_copy_only_copied (file dest : jsstring) :
  keeps (only_copied file dest) (fs_copy env file dest).
Proof.
  intro w. unfold fs_copy, bind, lift_void, write_disk.
  destruct (copy env file dest); simpl; split; auto.
Qed.

Lemma outputs_kept_only_copied file dest w w' :
  outputs_kept w w' -> only_copied file dest w w'.
Proof. intros [A B]. split; auto. Qed.

Lemma outputs_kept_then_only_copied file dest w w' w'' :
  outputs_kept w w' -> only_copied file dest w' w'' -> only_copied file dest w w''.
Proof.
  intros [A B] [C D]. split; [congruence|].
  rewrite <- A. exact D.
Qed.

Ltac then_copy :=
  eapply keeps_bind_then;
  [apply outputs_kept_only_copied
  |apply outputs_kept_then_only_copied
  |
  |intros ?].

Lemma keeps_as_binding (v : jsval) : keeps outputs_kept (as_binding v).
Proof.
  destruct v; [apply (keeps_throw outputs_kept_refl)
              |apply (keeps_throw outputs_kept_refl)
              |apply (keeps_ret outputs_kept_refl)].
Qed.

Lemma handleFile_legacy (file : jsstring) :
  isLegacyModelVersionScheme (relative_of env file) = true ->
  keeps (only_copied file (dest_of file)) (handleFile env file).
Proof.
  intros Hleg. unfold handleFile.
  fold (dest_of file). fold (relative_of env file). rewrite Hleg. cbn [negb].
  then_copy; [apply (keeps_lift outputs_kept_refl)|].
  then_copy; [apply (keeps_lift outputs_kept_refl)|].
  then_copy; [apply keeps_as_binding|].
  then_copy; [apply keeps_setupModelManager|].
  then_copy; [apply keeps_compileModel|].
  then_copy; [apply keeps_console_log|].
  then_copy; [apply keeps_fs_ensureDir|].
  apply fs_copy_only_copied.
Qed.

Lemma only_copied_refl file dest w : only_copied file dest w w.
Proof. split; auto. Qed.

(** A legacy-scheme file leaves the index alone and writes nothing but,
    at most, its copy. *)
Lemma processFile_legacy (file : jsstring) :
  isLegacyModelVersionScheme (relative_of env file) = true ->
  keeps (only_copied file (dest_of file)) (processFile env file).
Proof.
  intros Hleg w. unfold processFile, try_catch.
  assert (Hin : keeps (only_copied file (dest_of file))
                  (matches <- filter_matches env file ;;
                   if negb matches then ret tt else handleFile env file)).
  { then_copy.
    - unfold filter_matches. destruct (argv2 env);
        [apply (keeps_lift outputs_kept_refl)|apply (keeps_ret outputs_kept_refl)].
    - destruct a; cbn [negb].
      + now apply handleFile_legacy.
      + intro w'. apply only_copied_refl. }
  specialize (Hin w).
  destruct ((matches <- filter_matches env file ;;
             if negb matches then ret tt else handleFile env file) w)
    as [[u|e] w1]; cbn [snd] in *; [exact Hin|].
  destruct (keeps_catch_clause file e w1) as [C D].
  destruct Hin as [A B]. split; [congruence|]. rewrite C. exact B.
Qed.

End Legacy.

(** ** C3 *)

Section Scheme.
Context `{Semver} `{Collator}.
Variable env : Env.

(** When a legacy-scheme file is handled to the end, its copy is written. *)
Lemma handleFile_legacy_copies (file : jsstring) (w : World) :
  isLegacyModelVersionScheme (relative_of env file) = true ->
  fst (handleFile env file w) = Ok tt ->
  w_disk (snd (handleFile env file w))
  = (dest_of file, CopyOf file) :: w_disk w.
Proof.
  intros Hleg.
  destruct (handleFile env file w) as [r w'] eqn:E. cbn [fst snd].
  intros ->. revert E. unfold handleFile.
  fold (dest_of file). fold (relative_of env file). rewrite Hleg. cbn [negb].
  unfold bind at 1. unfold lift at 1.
  destruct (readFileSync env file) as [text|e]; [|discriminate].
  unfold bind at 1. unfold lift at 1.
  destruct (findCompatibleVersion (concertoVersions env) text) as [found|e];
    [|discriminate].
  unfold bind at 1.
  destruct (as_binding found w) as [[b|e] w1] eqn:E1; [|discriminate].
  pose proof (keeps_as_binding found w) as K1. rewrite E1 in K1.
  unfold bind at 1.
  destruct (setupModelManager env b w1) as [[mm|e] w2] eqn:E2; [|discriminate].
  pose proof (keeps_setupModelManager env b w1) as K2. rewrite E2 in K2.
  unfold bind at 1.
  destruct (compileModel b mm text file w2) as [[mf|e] w3] eqn:E3;
    [|discriminate].
  pose proof (keeps_compileModel b mm text file w2) as K3. rewrite E3 in K3.
  unfold bind at 1. unfold console_log at 1. cbv beta iota.
  unfold bind at 1.
  match goal with
  | |- context [fs_ensureDir env ?d ?w0] =>
      destruct (fs_ensureDir env d w0) as [[[]|e] w4] eqn:E4;
      [pose proof (keeps_fs_ensureDir env d w0) as K4; rewrite E4 in K4
      |discriminate]
  end.
  unfold fs_copy, bind, lift_void, write_disk.
  destruct (copy env file (dest_of file)); [discriminate|].
  intros E. injection E as <-. cbn [w_disk].
  destruct K1 as [K1 _], K2 as [K2 _], K3 as [K3 _], K4 as [K4 _].
  simpl in *. congruence.
Qed.

(** C3, as amended.  The expression of line 288 has no anchors: what it
    counts are the occurrences of [v<digits>[.<digits>[.<digits>]]] anywhere
    in the directory of a file's destination below the build directory,
    left to right and each as long as it can be -- whether or not an
    occurrence fills what stands between two slashes.  The directory is
    classified legacy-scheme exactly when there is one occurrence; none, or
    two or more, make it current-scheme.  Where the pattern occurs only as
    whole segments of the path, that is: exactly when one segment is a
    version.  A legacy-scheme file is only copied: its turn of the loop
    leaves the index as it was and writes no file but, at most, the copy --
    which it does write when the file is handled to the end. *)
Theorem legacy_scheme_is_only_copied (file : jsstring) (w : World) :
  let relative := relative_of env file in
  let w' := snd (processFile env file w) in
  (isLegacyModelVersionScheme relative = true
   <-> List.length (version_occurrences relative) = 1%nat)
  /\ (version_occurrences relative = version_path_segments relative ->
      (isLegacyModelVersionScheme relative = true
       <-> List.length (version_path_segments relative) = 1%nat))
  /\ (List.length (version_occurrences relative) = 1%nat ->
      w_index w' = w_index w
      /\ (w_disk w' = w_disk w
          \/ w_disk w' = (dest_of file, CopyOf file) :: w_disk w))
  /\ (List.length (version_occurrences relative) = 1%nat ->
      filter_matches env file w = (Ok true, w) ->
      fst (handleFile env file w) = Ok tt ->
      w_disk w' = (dest_of file, CopyOf file) :: w_disk w).
Proof.
  intros relative w'. split; [apply isLegacy_iff_one_occurrence|].
  split; [intros <-; apply isLegacy_iff_one_occurrence|]. split.
  - intros Hone. apply isLegacy_iff_one_occurrence in Hone.
    exact (processFile_legacy env file Hone w).
  - intros Hone Hfilter Hok. apply isLegacy_iff_one_occurrence in Hone.
    subst w'. unfold processFile, try_catch.
    erewrite bind_ok by exact Hfilter. cbn [negb].
    pose proof (handleFile_legacy_copies file w Hone Hok) as Hc.
    destruct (handleFile env file w) as [[[]|e] w1]; [exact Hc|discriminate].
Qed.

End Scheme.

Section Generators.
Context `{Semver} `{Collator}.
Variable env : Env.

Lemma keeps_grows_generate (b : Binding)
  (visitorName ext_ buildDir_ destPath fileNameNoExt : jsstring) (mm : nat) :
  keeps grows (generate b visitorName ext_ buildDir_ destPath fileNameNoExt mm).
Proof.
  intro w.
  exact (proj1 (generate_grows b visitorName ext_ buildDir_ destPath
                  fileNameNoExt mm w)).
Qed.

Lemma keeps_grows_runGenerators (b : Binding) (destPath fileNameNoExt : jsstring)
  (mm : nat) (generators : list generatorSpec) :
  keeps grows (runGenerators env generators b destPath fileNameNoExt mm).
Proof.
  induction generators as [|g gens IH]; [apply (keeps_ret grows_refl)|].
  cbn [runGenerators]. apply (keeps_bind grows_trans).
  - apply keeps_grows_generate.
  - intros _. exact IH.
Qed.

(** The loop of lines 311-314 runs to its end when what the generators
    throw are values with a message, and what each of them wrote is on the
    disk afterwards. *)
Lemma runGenerators_all (b : Binding) (destPath fileNameNoExt : jsstring)
  (mm : nat) (generators : list generatorSpec) :
  forall w,
    (forall g traversal,
        In g generators -> CodeGen b (visitor g) = Some traversal ->
        raises_with_message (traversal (manager_at w mm))) ->
  exists w',
    runGenerators env generators b destPath fileNameNoExt mm w = (Ok tt, w')
    /\ grows w w'
    /\ forall g x,
         In g generators ->
         In x (generate_writes b (visitor g)
                 (zip_path destPath fileNameNoExt (ext g)) (manager_at w mm)) ->
         In x (w_disk w').
Proof.
  induction generators as [|g gens IH]; intros w Hraise.
  - exists w. split; [reflexivity|]. split; [apply grows_refl|].
    intros g x [].
  - cbn [runGenerators].
    pose proof (generate_grows b (visitor g) (ext g) (buildDir env) destPath
                  fileNameNoExt mm w) as [G1 W1].
    pose proof (generate_returns b (visitor g) (ext g) (buildDir env) destPath
                  fileNameNoExt mm w
                  (fun t Ht => Hraise g t (or_introl eq_refl) Ht)) as R1.
    destruct (generate b (visitor g) (ext g) (buildDir env) destPath
                fileNameNoExt mm w) as [r1 w1] eqn:E1.
    cbn [fst snd] in *. subst r1.
    destruct (IH w1) as (w2 & E2 & G2 & W2).
    { intros g' t Hg' Ht. rewrite (grows_manager_at _ _ _ G1).
      apply (Hraise g' t); [now right|exact Ht]. }
    exists w2. split; [|split].
    + erewrite bind_ok by exact E1. exact E2.
    + eapply grows_trans; eassumption.
    + intros g' x [<-|Hin] Hx.
      * eapply grows_In; [exact G2|]. now apply W1.
      * apply (W2 g' x Hin). now rewrite (grows_manager_at _ _ _ G1).
Qed.

Lemma keeps_grows_generatePlantUML (b : Binding)
  (destPath fileNameNoExt : jsstring) (mf : ModelFile) :
  keeps grows (generatePlantUML env b destPath fileNameNoExt mf).
Proof.
  intro w.
  unfold generatePlantUML, try_catch, bind, lift, write_disk, console_log, ret,
    message_text.
  destruct (plantUML b mf) as [body|e]; cbn [snd].
  - repeat split. simpl. now eexists [_].
  - destruct (in_template e); repeat split; now exists [].
Qed.

Lemma generatePlantUML_returns (b : Binding)
  (destPath fileNameNoExt : jsstring) (mf : ModelFile) (w : World) :
  (forall e, plantUML b mf = Throw e -> with_message e) ->
  exists url,
    fst (generatePlantUML env b destPath fileNameNoExt mf w) = Ok url.
Proof.
  intros Hmsg.
  unfold generatePlantUML, try_catch, bind, lift, write_disk, console_log, ret,
    message_text.
  destruct (plantUML b mf) as [body|e]; cbn [fst].
  - eexists. reflexivity.
  - destruct (Hmsg e eq_refl) as [message ->]. eexists. reflexivity.
Qed.

Lemma keeps_grows_generateJsonAst (b : Binding)
  (destPath fileNameNoExt : jsstring) (mf : ModelFile) :
  keeps grows (generateJsonAst b destPath fileNameNoExt mf).
Proof.
  intro w.
  unfold generateJsonAst, try_catch, bind, lift, write_disk, console_log, ret,
    deref, message_text.
  destruct (jsonAst b _ mf) as [ast|e]; cbn [snd].
  - repeat split. simpl. now eexists [_].
  - destruct (in_template e); repeat split; now exists [].
Qed.

Lemma generateJsonAst_returns (b : Binding)
  (destPath fileNameNoExt : jsstring) (mf : ModelFile) (w : World) :
  (forall mgr e, jsonAst b mgr mf = Throw e -> with_message e) ->
  fst (generateJsonAst b destPath fileNameNoExt mf w) = Ok tt.
Proof.
  intros Hmsg.
  unfold generateJsonAst, try_catch, bind, lift, write_disk, console_log, ret,
    deref, message_text.
  destruct (jsonAst b _ mf) as [ast|e] eqn:E; cbn [fst]; [reflexivity|].
  destruct (Hmsg _ e E) as [message ->]. reflexivity.
Qed.

Lemma addCall_name_registration (b : Binding) (mf : ModelFile) (text : jsstring) :
  addCall_name (registration b mf text) = mf_name mf.
Proof. unfold registration. now destruct (satisfies _ _). Qed.

Lemma do_addModelFile_ok (b : Binding) (r : nat) (call : addCall) (w : World) :
  addModelFile b (manager_at w r) call = None ->
  do_addModelFile b r call w = (Ok tt, with_added w r (addCall_name call)).
Proof.
  intros E. unfold do_addModelFile, bind, deref, lift_void.
  fold (manager_at w r). rewrite E. reflexivity.
Qed.

End Generators.

(** ** C4 *)

Section Isolation.
Context `{Semver} `{Collator}.
Variable env : Env.

(** C4, as amended.  The failure of a generator that throws a value with
    a message -- an [Error], as the toolchain throws -- stays inside its own
    invocation.  Take a file of the current scheme whose earlier steps
    succeeded (the model is registered, external models are resolved or not
    asked for, the diagram and the syntax tree are written or their failure
    is logged) and whose copy and page rendering succeed as well.  Then,
    whatever the generators do short of throwing a value whose message
    cannot be read -- so also when one of them throws --, processing returns
    normally, the file's IndexEntry is appended, and for every generator of
    the list every archive its own traversal has the sink write is on the
    disk afterwards. *)
Theorem generator_failure_is_isolated (b : Binding) (mm : nat)
  (mf : ModelFile) (modelText file dest destPath relative fileNameNoExt : jsstring)
  (w : World) :
  addModelFile b (manager_at w mm) (registration b mf modelText) = None ->
  (FORCE_PUBLISH env = true
   \/ updateExternalModels b (manager_at (with_added w mm (mf_name mf)) mm)
      = None) ->
  (forall e, plantUML b mf = Throw e -> with_message e) ->
  (forall mgr e, jsonAst b mgr mf = Throw e -> with_message e) ->
  (forall g traversal,
      In g CODE_GENERATORS -> CodeGen b (visitor g) = Some traversal ->
      raises_with_message
        (traversal (manager_at (with_added w mm (mf_name mf)) mm))) ->
  copy env file dest = None ->
  (forall url, exists html,
      render_model env (relative ++ str "/" ++ fileNameNoExt) mf
        (deriveModelVersion (mf_name mf)) url b = Ok html) ->
  let result :=
    publishModel env b mm mf modelText file dest destPath relative
      fileNameNoExt w in
  fst result = Ok tt
  /\ w_index (snd result) =
     w_index w
     ++ [MkIndexEntry (relative ++ str "/" ++ fileNameNoExt ++ str ".html") mf
           (deriveModelVersion (mf_name mf))]
  /\ forall g traversal snapshot,
       In g CODE_GENERATORS ->
       CodeGen b (visitor g) = Some traversal ->
       In snapshot
         (archive_writes (visitor g)
            (traversal (manager_at (with_added w mm (mf_name mf)) mm))
            (MkFileWriter None []) []) ->
       In (zip_path destPath fileNameNoExt (ext g), Zip snapshot)
          (w_disk (snd result)).
Proof.
  intros Hadd Hext Huml Hast Hraise Hcopy Hrender result.
  set (w1 := with_added w mm (mf_name mf)).
  assert (E1 : (if satisfies (concertoVersion b) (str "0.82.x")
                then do_addModelFile b mm (AddLegacy mf (mf_name mf))
                else do_addModelFile b mm (AddCurrent mf modelText (mf_name mf))) w
               = (Ok tt, w1)).
  { unfold registration in Hadd. subst w1.
    destruct (satisfies (concertoVersion b) (str "0.82.x"));
      now rewrite do_addModelFile_ok. }
  assert (E2 : (if FORCE_PUBLISH env then ret tt
                else mm0 <- deref mm ;; lift_void (updateExternalModels b mm0)) w1
               = (Ok tt, w1)).
  { destruct (FORCE_PUBLISH env); [reflexivity|].
    destruct Hext as [Hf|Hu]; [discriminate|].
    change (manager_at (with_added w mm (mf_name mf)) mm)
      with (manager_at w1 mm) in Hu.
    unfold bind, deref, lift_void. fold (manager_at w1 mm). now rewrite Hu. }
  destruct (generatePlantUML_returns env b destPath fileNameNoExt mf w1 Huml)
    as [url R3].
  pose proof (keeps_grows_generatePlantUML env b destPath fileNameNoExt mf w1)
    as G3.
  destruct (generatePlantUML env b destPath fileNameNoExt mf w1)
    as [r3 w2] eqn:E3.
  cbn [fst snd] in R3, G3. subst r3.
  pose proof (generateJsonAst_returns b destPath fileNameNoExt mf w2 Hast) as R4.
  pose proof (keeps_grows_generateJsonAst b destPath fileNameNoExt mf w2) as G4.
  destruct (generateJsonAst b destPath fileNameNoExt mf w2) as [r4 w3] eqn:E4.
  cbn [fst snd] in R4, G4. subst r4.
  destruct (runGenerators_all env b destPath fileNameNoExt mm CODE_GENERATORS w3)
    as (w4 & E5 & G5 & W5).
  { intros g t Hg Ht.
    rewrite (grows_manager_at w2 w3 mm G4), (grows_manager_at w1 w2 mm G3).
    exact (Hraise g t Hg Ht). }
  destruct (Hrender url) as (html & E7).
  assert (E : result =
              (Ok tt,
               MkWorld (w_managers w4)
                 ((str "./build/" ++ relative ++ str "/" ++ fileNameNoExt
                   ++ str ".html", Text html) :: (dest, CopyOf file) :: w_disk w4)
                 (w_dirs w4)
                 (LogProcessed (mf_namespace mf) (deriveModelVersion (mf_name mf))
                  :: w_log w4)
                 (w_index w4
                  ++ [MkIndexEntry
                        (relative ++ str "/" ++ fileNameNoExt ++ str ".html") mf
                        (deriveModelVersion (mf_name mf))]))).
  { subst result. unfold publishModel.
    erewrite bind_ok by exact E1.
    erewrite bind_ok by exact E2.
    erewrite bind_ok by exact E3.
    erewrite bind_ok by exact E4.
    erewrite bind_ok by exact E5.
    unfold fs_copy. unfold bind at 2. unfold lift_void at 1. rewrite Hcopy.
    unfold bind, write_disk, lift, push_index, console_log.
    cbv beta iota. rewrite E7. reflexivity. }
  assert (G : grows w1 w4).
  { eapply grows_trans; [exact G3|]. eapply grows_trans; eassumption. }
  rewrite E. cbn [fst snd w_index w_disk].
  split; [reflexivity|]. split.
  - destruct G as (_ & -> & _). reflexivity.
  - intros g traversal snapshot Hg Hsome Hsnap.
    right. right. apply (W5 g _ Hg).
    unfold generate_writes, zip_writes. rewrite Hsome.
    rewrite (grows_manager_at w2 w3 mm G4), (grows_manager_at w1 w2 mm G3).
    rewrite <- in_rev. apply in_map_iff. exists snapshot. split; [reflexivity|].
    exact Hsnap.
Qed.

End Isolation.

(** ** C6 *)

Lemma pop_cons {A} (x : A) (l : list A) :
  l <> [] -> pop (x :: l) = pop l.
Proof. unfold pop. destruct l; [congruence|reflexivity]. Qed.

Lemma split_not_nil (sep : N) (s : jsstring) : split sep s <> [].
Proof.
  induction s as [|c s IH]; simpl; [discriminate|].
  destruct (N.eqb c sep); [discriminate|].
  destruct (split sep s); discriminate.
Qed.

Lemma split_no_sep (sep : N) (s : jsstring) :
  ~ In sep s -> split sep s = [s].
Proof.
  induction s as [|c s IH]; intros Hn; [reflexivity|]. simpl.
  destruct (N.eqb_spec c sep) as [->|Hc].
  - exfalso. apply Hn. now left.
  - rewrite IH; [reflexivity|]. intros Hin. apply Hn. now right.
Qed.

Lemma split_two_pieces (sep : N) (s : jsstring) :
  In sep s -> exists seg seg' segs, split sep s = seg :: seg' :: segs.
Proof.
  induction s as [|c s IH]; intros Hin; [destruct Hin|]. simpl.
  destruct (N.eqb_spec c sep) as [->|Hc].
  - destruct (split sep s) as [|seg segs] eqn:E;
      [now apply split_not_nil in E|]. eauto.
  - destruct Hin as [->|Hin]; [congruence|].
    destruct (IH Hin) as (seg & seg' & segs & ->). eauto.
Qed.

(** What follows the last separator is the last piece of the split. *)
Lemma pop_split_after_last (sep : N) (before after : jsstring) :
  ~ In sep after ->
  pop (split sep (before ++ sep :: after)) = Some after.
Proof.
  intros Hn. induction before as [|c before IH]; simpl.
  - rewrite N.eqb_refl. rewrite pop_cons by apply split_not_nil.
    now rewrite split_no_sep.
  - destruct (N.eqb c sep).
    + rewrite pop_cons by apply split_not_nil. exact IH.
    + destruct (split_two_pieces sep (before ++ sep :: after))
        as (seg & seg' & segs & E).
      { apply in_or_app. right. now left. }
      rewrite E in *. rewrite pop_cons by discriminate.
      rewrite pop_cons in IH by discriminate. exact IH.
Qed.

Section Version.
Context `{Semver}.

Lemma semverStr_after_last (before after : jsstring) :
  ~ In at_sign after ->
  semverStr (before ++ at_sign :: after) = slice_to_minus 4 after.
Proof.
  intros Hn. unfold semverStr. now rewrite pop_split_after_last.
Qed.

(** C6.  The published version of a file of the current scheme is derived
    from the registered name of its compiled model: what follows the last
    [@], less its last four units (the extension), when [semver.valid]
    accepts that, and [0.1.0] otherwise.  So a registered name ending in
    [@1.2.3.cto] gives [1.2.3], [1.2.3] being a valid version. *)
Theorem published_version_from_name (before after : jsstring) :
  ~ In at_sign after ->
  deriveModelVersion (before ++ at_sign :: after) =
    (if truthy (valid (slice_to_minus 4 after))
     then slice_to_minus 4 after
     else str "0.1.0")
  /\ (truthy (valid (str "1.2.3")) = true ->
      after = str "1.2.3.cto" ->
      deriveModelVersion (before ++ at_sign :: after) = str "1.2.3").
Proof.
  intros Hn. unfold deriveModelVersion.
  rewrite semverStr_after_last by exact Hn. split; [reflexivity|].
  intros Hv ->. change (slice_to_minus 4 (str "1.2.3.cto")) with (str "1.2.3").
  now rewrite Hv.
Qed.

End Version.

(** *** Files handled to the end are indexed *)

Lemma keeps_on_return {A} (R : World -> World -> Prop) (c : M A) :
  keeps R c -> on_return R c.
Proof. intros Hk w a w' E. specialize (Hk w). now rewrite E in Hk. Qed.

Lemma on_return_bind {A B} (R1 R2 R3 : World -> World -> Prop)
  (c : M A) (k : A -> M B) :
  (forall w w' w'', R1 w w' -> R2 w' w'' -> R3 w w'') ->
  on_return R1 c -> (forall a, on_return R2 (k a)) -> on_return R3 (bind c k).
Proof.
  intros Hcomp Hc Hk w b w''. unfold bind.
  destruct (c w) as [[a|e] w'] eqn:E; [|discriminate].
  intros E2. eapply Hcomp; [eapply Hc; exact E|eapply Hk; exact E2].
Qed.

Lemma index_kept_refl w : index_kept w w.
Proof. reflexivity. Qed.

Lemma index_kept_trans w1 w2 w3 :
  index_kept w1 w2 -> index_kept w2 w3 -> index_kept w1 w3.
Proof. unfold index_kept. congruence. Qed.

Lemma outputs_kept_index w w' : outputs_kept w w' -> index_kept w w'.
Proof. now intros [_ E]. Qed.

Lemma grows_index w w' : grows w w' -> index_kept w w'.
Proof. now intros (_ & E & _). Qed.

Lemma keeps_weaken {A} (R R' : World -> World -> Prop) (c : M A) :
  (forall w w', R w w' -> R' w w') -> keeps R c -> keeps R' c.
Proof. intros Hw Hk w. apply Hw, Hk. Qed.

Section Indexed.
Context `{Semver} `{Collator}.
Variable env : Env.

Lemma keeps_index_generatePlantUML b destPath fileNameNoExt mf :
  keeps index_kept (generatePlantUML env b destPath fileNameNoExt mf).
Proof.
  eapply keeps_weaken; [apply grows_index|apply keeps_grows_generatePlantUML].
Qed.

Lemma keeps_index_generateJsonAst b destPath fileNameNoExt mf :
  keeps index_kept (generateJsonAst b destPath fileNameNoExt mf).
Proof.
  eapply keeps_weaken; [apply grows_index|apply keeps_grows_generateJsonAst].
Qed.

Lemma keeps_index_runGenerators generators b destPath fileNameNoExt mm :
  keeps index_kept (runGenerators env generators b destPath fileNameNoExt mm).
Proof.
  eapply keeps_weaken; [apply grows_index|apply keeps_grows_runGenerators].
Qed.

Lemma keeps_index_fs_copy source dest : keeps index_kept (fs_copy env source dest).
Proof.
  intro w. unfold fs_copy, bind, lift_void, write_disk.
  destruct (copy env source dest); reflexivity.
Qed.

Lemma keeps_index_registration b mm mf modelText :
  keeps index_kept
    (if satisfies (concertoVersion b) (str "0.82.x")
     then do_addModelFile b mm (AddLegacy mf (mf_name mf))
     else do_addModelFile b mm (AddCurrent mf modelText (mf_name mf))).
Proof.
  destruct (satisfies _ _);
    (eapply keeps_weaken; [apply outputs_kept_index|apply keeps_do_addModelFile]).
Qed.

Lemma keeps_index_resolution b mm :
  keeps index_kept
    (if FORCE_PUBLISH env then ret tt
     else mm0 <- deref mm ;; lift_void (updateExternalModels b mm0)).
Proof.
  destruct (FORCE_PUBLISH env); [apply (keeps_ret index_kept_refl)|].
  apply (keeps_bind index_kept_trans); [apply (keeps_deref index_kept_refl)|].
  intros m. apply (keeps_lift_void index_kept_refl).
Qed.

Lemma index_kept_then_appended e w w' w'' :
  index_kept w w' -> index_appended e w' w'' -> index_appended e w w''.
Proof. unfold index_kept, index_appended. congruence. Qed.

(** A step that keeps the index, before steps known by what they do to it
    when they return. *)
Ltac kept_then :=
  match goal with
  | |- on_return ?R (bind _ _) =>
      eapply (on_return_bind index_kept R R);
      [|apply keeps_on_return|intros ?]
  end.

(** A file of the current scheme that is published to the end has its
    entry appended to the index. *)
Lemma publishModel_appends b mm mf modelText file dest destPath relative
  fileNameNoExt :
  on_return
    (index_appended
       (MkIndexEntry (relative ++ str "/" ++ fileNameNoExt ++ str ".html") mf
          (deriveModelVersion (mf_name mf))))
    (publishModel env b mm mf modelText file dest destPath relative
       fileNameNoExt).
Proof.
  unfold publishModel.
  kept_then; [apply index_kept_then_appended|apply keeps_index_registration|].
  kept_then; [apply index_kept_then_appended|apply keeps_index_resolution|].
  kept_then; [apply index_kept_then_appended|apply keeps_index_generatePlantUML|].
  kept_then; [apply index_kept_then_appended|apply keeps_index_generateJsonAst|].
  kept_then; [apply index_kept_then_appended|apply keeps_index_runGenerators|].
  kept_then; [apply index_kept_then_appended|apply keeps_index_fs_copy|].
  kept_then; [apply index_kept_then_appended|apply (keeps_lift index_kept_refl)|].
  intros w u w'. unfold bind, push_index, console_log, write_disk.
  intros E. injection E as _ <-. reflexivity.
Qed.

Lemma index_extends_refl w : index_extends w w.
Proof. exists []. now rewrite app_nil_r. Qed.

Lemma index_extends_trans w1 w2 w3 :
  index_extends w1 w2 -> index_extends w2 w3 -> index_extends w1 w3.
Proof.
  intros [l E] [l' E']. exists (l ++ l'). rewrite E', E. now rewrite app_assoc.
Qed.

Lemma index_kept_extends w w' : index_kept w w' -> index_extends w w'.
Proof. intros E. exists []. now rewrite app_nil_r. Qed.

Lemma outputs_kept_extends w w' : outputs_kept w w' -> index_extends w w'.
Proof. intros E. now apply index_kept_extends, outputs_kept_index. Qed.

Lemma keeps_extends_publishModel b mm mf modelText file dest destPath relative
  fileNameNoExt :
  keeps index_extends
    (publishModel env b mm mf modelText file dest destPath relative
       fileNameNoExt).
Proof.
  unfold publishModel.
  apply (keeps_bind index_extends_trans);
    [eapply keeps_weaken; [apply index_kept_extends
                          |apply keeps_index_registration]|intros _].
  apply (keeps_bind index_extends_trans);
    [eapply keeps_weaken; [apply index_kept_extends
                          |apply keeps_index_resolution]|intros _].
  apply (keeps_bind index_extends_trans);
    [eapply keeps_weaken; [apply index_kept_extends
                          |apply keeps_index_generatePlantUML]|intros url].
  apply (keeps_bind index_extends_trans);
    [eapply keeps_weaken; [apply index_kept_extends
                          |apply keeps_index_generateJsonAst]|intros _].
  apply (keeps_bind index_extends_trans);
    [eapply keeps_weaken; [apply index_kept_extends
                          |apply keeps_index_runGenerators]|intros _].
  apply (keeps_bind index_extends_trans);
    [eapply keeps_weaken; [apply index_kept_extends
                          |apply keeps_index_fs_copy]|intros _].
  apply (keeps_bind index_extends_trans);
    [apply (keeps_lift index_extends_refl)|intros html].
  intro w. unfold bind, push_index, console_log, write_disk. cbn [snd w_index].
  now eexists.
Qed.

Lemma keeps_extends_handleFile (file : jsstring) :
  keeps index_extends (handleFile env file).
Proof.
  unfold handleFile.
  apply (keeps_bind index_extends_trans);
    [apply (keeps_lift index_extends_refl)|intros text].
  apply (keeps_bind index_extends_trans);
    [apply (keeps_lift index_extends_refl)|intros found].
  apply (keeps_bind index_extends_trans);
    [eapply keeps_weaken; [apply outputs_kept_extends
                          |apply keeps_as_binding]|intros b].
  apply (keeps_bind index_extends_trans);
    [eapply keeps_weaken; [apply outputs_kept_extends
                          |apply keeps_setupModelManager]|intros mm].
  apply (keeps_bind index_extends_trans);
    [eapply keeps_weaken; [apply outputs_kept_extends
                          |apply keeps_compileModel]|intros mf].
  apply (keeps_bind index_extends_trans);
    [eapply keeps_weaken; [apply outputs_kept_extends
                          |apply keeps_console_log]|intros _].
  apply (keeps_bind index_extends_trans);
    [eapply keeps_weaken; [apply outputs_kept_extends
                          |apply keeps_fs_ensureDir]|intros _].
  destruct (negb _).
  - apply keeps_extends_publishModel.
  - eapply keeps_weaken; [apply index_kept_extends|apply keeps_index_fs_copy].
Qed.

(** A turn of the loop takes nothing from the index. *)
Lemma keeps_extends_processFile (file : jsstring) :
  keeps index_extends (processFile env file).
Proof.
  unfold processFile.
  apply (keeps_try_catch index_extends_trans).
  - apply (keeps_bind index_extends_trans).
    + unfold filter_matches. destruct (argv2 env);
        [apply (keeps_lift index_extends_refl)
        |apply (keeps_ret index_extends_refl)].
    + intros [|]; cbn [negb];
        [apply keeps_extends_handleFile|apply (keeps_ret index_extends_refl)].
  - intros e. eapply keeps_weaken;
      [apply outputs_kept_extends|apply keeps_catch_clause].
Qed.

Lemma keeps_extends_processFiles (files : list jsstring) :
  keeps index_extends (processFiles env files).
Proof.
  induction files as [|file files IH]; [apply (keeps_ret index_extends_refl)|].
  cbn [processFiles]. apply (keeps_bind index_extends_trans).
  - apply keeps_extends_processFile.
  - intros _. exact IH.
Qed.

(** The turns of a list of files, one list after another: when the loop
    gets through the first list it goes on with the second. *)
Lemma processFiles_app (files1 files2 : list jsstring) :
  forall w,
    fst (processFiles env files1 w) = Ok tt ->
    processFiles env (files1 ++ files2) w
    = processFiles env files2 (snd (processFiles env files1 w)).
Proof.
  induction files1 as [|file files1 IH]; intros w; [reflexivity|].
  cbn [app processFiles]. unfold bind.
  destruct (processFile env file w) as [[[]|e] w1]; [apply IH|discriminate].
Qed.

(** A file of the current scheme that is handled to the end has its entry,
    naming its page, appended to the index. *)
Lemma handleFile_current_appends (file : jsstring) :
  isLegacyModelVersionScheme (relative_of env file) = false ->
  on_return
    (fun w w' => exists e,
         index_appended e w w' /\ htmlFile e = html_of env file)
    (handleFile env file).
Proof.
  intros Hcur. unfold handleFile.
  fold (dest_of file). fold (relative_of env file). rewrite Hcur. cbn [negb].
  assert (Hcomp : forall w w' w'' : World,
             index_kept w w' ->
             (exists e, index_appended e w' w'' /\ htmlFile e = html_of env file) ->
             exists e, index_appended e w w'' /\ htmlFile e = html_of env file).
  { intros w w' w'' Hk (e & Ha & Hh). exists e. split; [|exact Hh].
    eapply index_kept_then_appended; eassumption. }
  kept_then; [exact Hcomp|apply (keeps_lift index_kept_refl)|].
  kept_then; [exact Hcomp|apply (keeps_lift index_kept_refl)|].
  kept_then; [exact Hcomp
             |eapply keeps_weaken; [apply outputs_kept_index
                                   |apply keeps_as_binding]|].
  kept_then; [exact Hcomp
             |eapply keeps_weaken; [apply outputs_kept_index
                                   |apply keeps_setupModelManager]|].
  kept_then; [exact Hcomp
             |eapply keeps_weaken; [apply outputs_kept_index
                                   |apply keeps_compileModel]|].
  kept_then; [exact Hcomp
             |eapply keeps_weaken; [apply outputs_kept_index
                                   |apply keeps_console_log]|].
  kept_then; [exact Hcomp
             |eapply keeps_weaken; [apply outputs_kept_index
                                   |apply keeps_fs_ensureDir]|].
  intros w u w' E. eexists. split.
  - eapply publishModel_appends. exact E.
  - reflexivity.
Qed.

(** So does its turn of the loop, when the filter lets it through. *)
Lemma processFile_current_appends (file : jsstring) (w : World) :
  filter_matches env file w = (Ok true, w) ->
  fst (handleFile env file w) = Ok tt ->
  isLegacyModelVersionScheme (relative_of env file) = false ->
  exists e,
    index_appended e w (snd (processFile env file w))
    /\ htmlFile e = html_of env file.
Proof.
  intros Hfilter Hok Hcur. unfold processFile, try_catch.
  erewrite bind_ok by exact Hfilter. cbn [negb].
  destruct (handleFile env file w) as [[[]|e] w1] eqn:E; [|discriminate].
  exact (handleFile_current_appends file Hcur w tt w1 E).
Qed.

End Indexed.

(** ** C10 *)

(** The expression [match] makes of [undefined] has the empty pattern,
    which the matcher matches at the start of every string. *)
Lemma empty_pattern_matches (file : jsstring) :
  match_first Eps file = Some (MState None file None).
Proof. destruct file; reflexivity. Qed.

Section Filter.
Context `{Semver} `{Collator}.
Variable env : Env.

Lemma keeps_log_setupModelManager (b : Binding) :
  keeps log_extends (setupModelManager env b).
Proof.
  unfold setupModelManager. keeps_log; apply keeps_log_do_addModelFile.
Qed.

Lemma keeps_log_compileModel (b : Binding) (mm : nat) (text file : jsstring) :
  keeps log_extends (compileModel b mm text file).
Proof. unfold compileModel. keeps_log. Qed.

Lemma keeps_log_fs_copy (source dest : jsstring) :
  keeps log_extends (fs_copy env source dest).
Proof. unfold fs_copy. keeps_log. Qed.

Lemma keeps_log_generate (b : Binding)
  (visitorName ext_ buildDir_ destPath fileNameNoExt : jsstring) (mm : nat) :
  keeps log_extends
    (generate b visitorName ext_ buildDir_ destPath fileNameNoExt mm).
Proof.
  intro w.
  destruct (generate_result b visitorName ext_ buildDir_ destPath fileNameNoExt
              mm w) as [E|[[message E]|(t & e & e' & _ & _ & _ & E)]];
    rewrite E; cbn [snd].
  - now exists [].
  - now eexists [_].
  - now exists [].
Qed.

Lemma keeps_log_runGenerators (b : Binding) (destPath fileNameNoExt : jsstring)
  (mm : nat) (generators : list generatorSpec) :
  keeps log_extends (runGenerators env generators b destPath fileNameNoExt mm).
Proof.
  induction generators as [|g gens IH]; cbn [runGenerators]; keeps_log.
  - apply keeps_log_generate.
  - exact IH.
Qed.

Lemma keeps_log_publishModel b mm mf modelText file dest destPath relative
  fileNameNoExt :
  keeps log_extends
    (publishModel env b mm mf modelText file dest destPath relative
       fileNameNoExt).
Proof.
  unfold publishModel, generatePlantUML, generateJsonAst. keeps_log;
    try apply keeps_log_do_addModelFile;
    try apply keeps_log_runGenerators;
    try apply keeps_log_fs_copy.
Qed.

(** A file that is handled shows on the console: the handling either comes
    to line 274 and prints the namespace of the model, or throws before. *)
Lemma handleFile_shows (file : jsstring) :
  outcome (logs (taken_up file)) log_extends (handleFile env file).
Proof.
  intros w. unfold handleFile.
  unfold bind at 1. unfold lift at 1.
  destruct (readFileSync env file) as [text|e]; [|apply log_extends_refl].
  unfold bind at 1. unfold lift at 1.
  destruct (findCompatibleVersion (concertoVersions env) text) as [found|e];
    [|apply log_extends_refl].
  unfold bind at 1.
  destruct found as [|s|b]; cbn [as_binding]; try apply log_extends_refl.
  unfold ret at 1.
  unfold bind at 1.
  pose proof (keeps_log_setupModelManager b w) as K1.
  destruct (setupModelManager env b w) as [[mm|e] w1]; cbn [snd] in K1;
    [|exact K1].
  unfold bind at 1.
  pose proof (keeps_log_compileModel b mm text file w1) as K2.
  destruct (compileModel b mm text file w1) as [[mf|e] w2]; cbn [snd] in K2;
    [|eapply log_extends_trans; eassumption].
  unfold bind at 1. unfold console_log at 1. cbv beta iota.
  set (line := LogProcessing (mf_namespace mf) (concertoVersion b)).
  set (w3 := MkWorld (w_managers w2) (w_disk w2) (w_dirs w2) (line :: w_log w2)
               (w_index w2)).
  assert (H3 : logs (taken_up file) w w3).
  { eapply extends_then_logs;
      [eapply log_extends_trans; [exact K1|exact K2]|].
    exists [line]. split; [reflexivity|]. exists line.
    split; [now left|]. right. now exists (mf_namespace mf), (concertoVersion b). }
  match goal with
  | |- match ?c w3 with _ => _ end =>
      assert (K4 : keeps log_extends c);
      [|specialize (K4 w3); destruct (c w3) as [[u|e] w4]; cbn [snd] in K4]
  end.
  - unfold fs_ensureDir. keeps_log;
      [apply keeps_log_publishModel|apply keeps_log_fs_copy].
  - eapply logs_then_extends; eassumption.
  - eapply logs_extends, logs_then_extends; eassumption.
Qed.

(** C10.  Without a filter argument no file is skipped by the filter step:
    [match] makes the empty expression of [undefined], and that matches
    every path.  So every file of the list that the loop comes to is handed
    to the handling of lines 253-342, with the catch clause of its turn
    behind it, and shows on the console: by the line of line 274, with the
    namespace of its model, or by the first line of the catch clause, with
    its path. *)
Theorem no_filter_processes_every_file (files : list jsstring) (w : World) :
  argv2 env = None ->
  (forall file w', filter_matches env file w' = (Ok true, w'))
  /\ forall files1 file files2,
       files = files1 ++ file :: files2 ->
       fst (processFiles env files1 w) = Ok tt ->
       let w1 := snd (processFiles env files1 w) in
       let turn := try_catch (handleFile env file) (reportError file) w1 in
       processFiles env (files1 ++ [file]) w = turn
       /\ logs (taken_up file) w1 (snd turn).
Proof.
  intros Hnone.
  assert (Hfilter : forall file w', filter_matches env file w' = (Ok true, w')).
  { intros file w'. unfold filter_matches. rewrite Hnone.
    now rewrite empty_pattern_matches. }
  split; [exact Hfilter|].
  intros files1 file files2 _ Hloop w1 turn. split.
  - rewrite (processFiles_app env files1 [file] w Hloop). fold w1.
    cbn [processFiles]. unfold bind at 1.
    assert (E : processFile env file w1 = turn).
    { unfold processFile, try_catch.
      erewrite bind_ok by apply Hfilter. reflexivity. }
    rewrite E. destruct turn as [[[]|e] w2]; reflexivity.
  - subst turn. unfold try_catch.
    pose proof (handleFile_shows file w1) as Hh.
    destruct (handleFile env file w1) as [[u|e] w2]; cbn [snd]; [exact Hh|].
    eapply extends_then_logs; [exact Hh|].
    destruct (reportError_logs file e w2) as (lines & E & line & Hin & <-).
    exists lines. split; [exact E|]. exists (LogErrorHandling file).
    split; [exact Hin|now left].
Qed.

End Filter.

(** ** C8 *)

Section Sorting.
Context {A : Type}.
Variable cmp : A -> A -> Z.
Hypothesis cmp_ok : consistent_comparator cmp.


Lemma insert_sorted_perm (x : A) (l : list A) :
  Permutation (x :: l) (insert_sorted cmp x l).
Proof.
  induction l as [|y l IH]; simpl; [reflexivity|].
  destruct (cmp x y <? 0)%Z; [reflexivity|].
  rewrite perm_swap. now apply perm_skip.
Qed.

Lemma insert_sorted_sorted (x : A) (l : list A) :
  StronglySorted (precedes cmp) l -> StronglySorted (precedes cmp) (insert_sorted cmp x l).
Proof.
  destruct cmp_ok as [Hsym Htrans].
  induction 1 as [|y l Hs IH Hall]; simpl.
  - constructor; constructor.
  - destruct (Z.ltb_spec (cmp x y) 0) as [Hlt|Hge].
    + constructor; [constructor; assumption|].
      constructor; [unfold precedes; lia|].
      eapply Forall_impl; [|exact Hall].
      intros z Hz. apply (Htrans x y z); [lia|exact Hz].
    + constructor; [exact IH|].
      eapply Permutation_Forall; [apply insert_sorted_perm|].
      constructor; [|exact Hall].
      unfold precedes.
      destruct (Z.le_gt_cases (cmp y x) 0) as [Hle|Hgt]; [exact Hle|].
      apply Z.lt_gt in Hgt. apply Hsym in Hgt. lia.
Qed.

Lemma array_sort_aux (l acc : list A) :
  StronglySorted (precedes cmp) acc ->
  StronglySorted (precedes cmp)
    (fold_left (fun sorted x => insert_sorted cmp x sorted) l acc)
  /\ Permutation (acc ++ l)
       (fold_left (fun sorted x => insert_sorted cmp x sorted) l acc).
Proof.
  revert acc. induction l as [|x l IH]; intros acc Hacc; simpl.
  - split; [exact Hacc|]. now rewrite app_nil_r.
  - destruct (IH (insert_sorted cmp x acc)) as [Hs Hp].
    + now apply insert_sorted_sorted.
    + split; [exact Hs|].
      transitivity (insert_sorted cmp x acc ++ l); [|exact Hp].
      transitivity ((x :: acc) ++ l).
      * symmetry. apply Permutation_middle.
      * apply Permutation_app_tail, insert_sorted_perm.
Qed.

Lemma array_sort_sorted (l : list A) :
  StronglySorted (precedes cmp) (array_sort cmp l).
Proof. apply array_sort_aux. constructor. Qed.

Lemma array_sort_perm (l : list A) : Permutation l (array_sort cmp l).
Proof. apply (array_sort_aux l []). constructor. Qed.

End Sorting.

Section Index.
Context `{Semver} `{Collator}.
Variable env : Env.

(** C8.  After all files are processed the index is sorted by namespace:
    the final index holds exactly the entries the loop accumulated, in
    non-decreasing order of [localeCompare] on their namespaces, and it is
    the index [main] ends with.  Every file the loop came to and processed
    with success (let through by the filter, of the current scheme, handled
    to the end) had its entry appended in its turn, and that entry is in the
    final index.  With the namespaces [z.model] and [a.model] accumulated,
    in either order, the final order is [a.model], [z.model]. *)
Theorem final_index_is_sorted (files : list jsstring) (w0 : World) :
  consistent_comparator localeCompare ->
  let accumulated := w_index (snd (processFiles env files w0)) in
  let final := w_index (snd (sort_index (snd (processFiles env files w0)))) in
  StronglySorted
    (fun a b => (localeCompare (entry_namespace a) (entry_namespace b) <= 0)%Z)
    final
  /\ Permutation accumulated final
  /\ (forall w,
        fst (main env w) = Ok tt ->
        getFiles env = Ok files ->
        w0 = snd (copyAssets env w) ->
        w_index (snd (main env w)) = final)
  /\ (forall files1 file files2,
        files = files1 ++ file :: files2 ->
        fst (processFiles env files1 w0) = Ok tt ->
        let w1 := snd (processFiles env files1 w0) in
        filter_matches env file w1 = (Ok true, w1) ->
        fst (handleFile env file w1) = Ok tt ->
        isLegacyModelVersionScheme (relative_of env file) = false ->
        exists e,
          htmlFile e = html_of env file
          /\ index_appended e w1 (snd (processFile env file w1))
          /\ In e final)
  /\ (forall ez ea,
        entry_namespace ez = str "z.model" ->
        entry_namespace ea = str "a.model" ->
        (localeCompare (str "a.model") (str "z.model") < 0)%Z ->
        accumulated = [ez; ea] \/ accumulated = [ea; ez] ->
        List.map entry_namespace final = [str "a.model"; str "z.model"]).
Proof.
  intros Hcmp accumulated final.
  assert (Hby : consistent_comparator byNamespace).
  { destruct Hcmp as [Hs Ht]. split.
    - intros a b. apply Hs.
    - intros a b c. apply Ht. }
  assert (Hfinal : final = array_sort byNamespace accumulated) by reflexivity.
  assert (Hperm : Permutation accumulated final).
  { rewrite Hfinal. exact (array_sort_perm byNamespace Hby accumulated). }
  split; [|split; [|split; [|split]]].
  - rewrite Hfinal. exact (array_sort_sorted byNamespace Hby accumulated).
  - exact Hperm.
  - intros w Hok Hfiles ->. subst final.
    destruct (main env w) as [r wf] eqn:E. cbn [fst snd] in Hok |- *.
    subst r. revert E.
    unfold main. unfold bind at 1.
    destruct (copyAssets env w) as [[[]|e] w1]; [|discriminate]. cbn [snd].
    unfold bind at 1. unfold lift at 1. rewrite Hfiles.
    unfold bind at 1.
    destruct (processFiles env files w1) as [[[]|e] w2]; [|discriminate].
    cbn [snd].
    unfold bind at 1. unfold sort_index at 1. cbv beta iota.
    unfold bind at 1. cbv beta iota. unfold bind, lift, write_disk.
    cbn [w_index].
    destruct (render_index env _); [|discriminate].
    intros E. injection E as <-. reflexivity.
  - intros files1 file files2 Hfiles Hloop w1 Hfilter Hok Hcur.
    destruct (processFile_current_appends env file w1 Hfilter Hok Hcur)
      as (e & Happ & Hhtml).
    exists e. split; [exact Hhtml|]. split; [exact Happ|].
    apply (Permutation_in e Hperm). subst accumulated.
    rewrite Hfiles, (processFiles_app env files1 (file :: files2) w0 Hloop).
    fold w1. cbn [processFiles].
    pose proof (keeps_extends_processFiles env files2) as Hrest.
    unfold bind at 1.
    destruct (processFile env file w1) as [[[]|err] w2]; cbn [snd] in Happ |- *.
    + destruct (Hrest w2) as [l El].
      rewrite El. apply in_or_app. left.
      unfold index_appended in Happ. rewrite Happ.
      apply in_or_app. right. now left.
    + unfold index_appended in Happ. rewrite Happ.
      apply in_or_app. right. now left.
  - intros ez ea Hz Ha Hlt Hacc. rewrite Hfinal.
    assert (Haz : (byNamespace ea ez < 0)%Z).
    { unfold byNamespace. fold (entry_namespace ea) (entry_namespace ez).
      now rewrite Ha, Hz. }
    assert (Hza : (byNamespace ez ea <? 0)%Z = false).
    { apply Z.ltb_ge. destruct Hby as [Hs _]. apply Hs in Haz. lia. }
    destruct Hacc as [-> | ->]; unfold array_sort; cbn [fold_left insert_sorted].
    + apply Z.ltb_lt in Haz. rewrite Haz. cbn [List.map]. now rewrite Ha, Hz.
    + rewrite Hza. cbn [List.map]. now rewrite Ha, Hz.
Qed.

End Index.

(** ** The worked examples *)

Lemma compare_str_antisym (a : jsstring) :
  forall b, NodeSemver.compare_str b a = CompOpp (NodeSemver.compare_str a b).
Proof.
  induction a as [|x a IH]; intros [|y b]; simpl; try reflexivity.
  rewrite (N.compare_antisym x y).
  destruct (N.compare x y); simpl; auto.
Qed.

Lemma compare_str_le_trans (a : jsstring) :
  forall b c,
    NodeSemver.compare_str a b <> Gt ->
    NodeSemver.compare_str b c <> Gt ->
    NodeSemver.compare_str a c <> Gt.
Proof.
  induction a as [|x a IH]; intros [|y b] [|z c]; simpl; try congruence.
  destruct (N.compare_spec x y) as [->|Hxy|Hxy]; try congruence.
  - destruct (N.compare_spec y z) as [->|Hyz|Hyz]; try congruence.
    apply IH.
  - destruct (N.compare_spec y z) as [->|Hyz|Hyz]; try congruence.
    + intros _ _. destruct (N.compare_spec x z); try discriminate; lia.
    + intros _ _. destruct (N.compare_spec x z); try discriminate; lia.
Qed.

Lemma unit_order_consistent :
  consistent_comparator (@localeCompare unit_order).
Proof.
  split.
  - intros a b. cbn [localeCompare unit_order].
    rewrite (compare_str_antisym a b).
    destruct (NodeSemver.compare_str a b); simpl; lia.
  - intros a b c. cbn [localeCompare unit_order]. intros Hab Hbc.
    pose proof (compare_str_le_trans a b c) as Ht.
    destruct (NodeSemver.compare_str a b); try lia;
      destruct (NodeSemver.compare_str b c); try lia;
      destruct (NodeSemver.compare_str a c); try lia;
      exfalso; apply Ht; congruence.
Qed.

(** The failing input of C1 end to end: the legacy file is compiled with the
    second container of its turn, which holds the file alone. *)
Example legacy_file_compiled_without_system_model :
  let w := snd (@processFile node_semver (sample_env []) legacy_file
                  initial_world) in
  w_managers w =
    [MkModelManager false [str "base.cto"];
     MkModelManager true [legacy_file]]
  /\ List.map (fun e => mf_manager (modelFile e)) (w_index w) = [1%nat].
Proof. split; reflexivity. Qed.

Lemma system_model_container_witness :
  let w' :=
    snd (@setupModelManager node_semver (sample_env []) concerto_0_82
           initial_world) in
  fst (@setupModelManager node_semver (sample_env []) concerto_0_82
         initial_world) = Ok 1%nat
  /\ manager_at w' 0 = MkModelManager false [str "base.cto"]
  /\ manager_at w' 1 = MkModelManager true []
  /\ ~ In (str "base.cto") (mm_files (manager_at w' 1)).
Proof.
  apply (system_model_container_is_replaced (sample_env []) concerto_0_82
           initial_world (str "namespace base")); reflexivity.
Defined.

(** The counterexample to C2 as stated.  The directive gives the range
    [>=1.0.0 <2.0.0], which the entry [1.5.0] satisfies, first in the
    registry's order; the script removes the space, tests [>=1.0.0<2.0.0],
    which is no range, and returns the default binding, [3.0.0].  And for the
    empty range, which every release satisfies, the guard of line 223 lets no
    entry match: the default again, not the first entry. *)
Lemma spaced_range_gets_default :
  directive_range spaced_range_text = Some (str ">=1.0.0 <2.0.0")
  /\ first_satisfying sample_registry (str ">=1.0.0 <2.0.0")
     = Some (str "1.5.0", VBinding concerto_1_5)
  /\ findCompatibleVersion sample_registry spaced_range_text
     = Ok (VBinding concerto_3_0)
  /\ concertoVersion concerto_3_0 <> concertoVersion concerto_1_5
  /\ directive_range (declaration_line []) = Some []
  /\ first_satisfying sample_registry []
     = Some (str "0.82.11", VBinding concerto_0_82)
  /\ findCompatibleVersion sample_registry (declaration_line [])
     = Ok (VBinding concerto_3_0).
Proof.
  repeat split; try reflexivity. discriminate.
Qed.

Lemma one_space_range_ok :
  (forall c, In c (str ">= 1.0.0") -> is_whitespace c = true -> c = space)
  /\ (count_occ N.eq_dec (str ">= 1.0.0") space <= 1)%nat.
Proof.
  split.
  - intros c Hin. simpl in Hin.
    repeat (destruct Hin as [<-|Hin]; [try discriminate; reflexivity|]).
    destruct Hin.
  - vm_compute. lia.
Qed.

Lemma findCompatibleVersion_selects_witness :
  findCompatibleVersion sample_registry (declaration_line (str ">= 1.0.0"))
  = Ok (VBinding concerto_1_5).
Proof.
  exact (proj1 (findCompatibleVersion_selects sample_registry
                  (declaration_line (str ">= 1.0.0")) (str ">= 1.0.0") eq_refl
                  (proj1 one_space_range_ok) (proj2 one_space_range_ok))).
Defined.

Lemma legacy_scheme_witness :
  let w' :=
    snd (@processFile node_semver (sample_env []) old_file initial_world) in
  version_occurrences (relative_of (sample_env []) old_file) = [str "v2"]
  /\ w_index w' = []
  /\ w_disk w' = [(str "/repo/build/cicero/v2/old.cto", CopyOf old_file)].
Proof.
  destruct (@legacy_scheme_is_only_copied node_semver (sample_env []) old_file
              initial_world) as (_ & _ & Hkept & Hcopy).
  split; [reflexivity|]. split.
  - apply Hkept. reflexivity.
  - apply Hcopy; reflexivity.
Defined.


(** What the generators of the sample toolchain throw are errors. *)
Lemma sample_generators_throw_errors (visitorName : jsstring)
  (traversal : ModelManagerObj -> list sinkOp) (mgr : ModelManagerObj) :
  codeGen visitorName = Some traversal -> raises_with_message (traversal mgr).
Proof.
  unfold codeGen.
  destruct (JS.eqb visitorName (str "XmlSchemaVisitor")).
  - intros E. injection E as <-. intros e Hin. simpl in Hin.
    repeat (destruct Hin as [Hin|Hin]; [try discriminate|]);
      [|destruct Hin].
    injection Hin as <-. now exists (str "boom").
  - destruct (JS.eqb visitorName (str "TypescriptVisitor")); [|discriminate].
    intros E. injection E as <-. intros e Hin. simpl in Hin.
    repeat (destruct Hin as [Hin|Hin]; [discriminate|]). destruct Hin.
Qed.

Lemma generator_failure_witness :
  let result :=
    @publishModel node_semver (sample_env []) concerto_3_0 0 z_model z_text
      z_file (str "/repo/build/z/model@1.2.3.cto") (str "/repo/build/z")
      (str "/z") (str "model@1.2.3") one_container in
  CodeGen concerto_3_0 (str "XmlSchemaVisitor") = Some failing_traversal
  /\ In (LogGenerating (str "XmlSchemaVisitor") (str "/repo/build/z")
           (str "model@1.2.3") (str "boom"))
        (w_log (snd result))
  /\ fst result = Ok tt
  /\ w_index (snd result)
     = [MkIndexEntry (str "/z/model@1.2.3.html") z_model (str "1.2.3")]
  /\ In (str "/repo/build/z/model@1.2.3.ts.zip",
         Zip [MkEntry (str "model.ts")
                (str "export class A {}" ++ [10])
                (str "Generated by TypescriptVisitor")])
        (w_disk (snd result)).
Proof.
  destruct (@generator_failure_is_isolated node_semver (sample_env [])
              concerto_3_0 0 z_model z_text z_file
              (str "/repo/build/z/model@1.2.3.cto") (str "/repo/build/z")
              (str "/z") (str "model@1.2.3") one_container)
    as (Hok & Hindex & Harchives).
  - reflexivity.
  - right. reflexivity.
  - discriminate.
  - discriminate.
  - intros g traversal _ Ht. exact (sample_generators_throw_errors _ _ _ Ht).
  - reflexivity.
  - intros url. exists (str "<html>"). reflexivity.
  - split; [reflexivity|]. split; [vm_compute; tauto|].
    split; [exact Hok|]. split; [exact Hindex|].
    apply (Harchives
             (MkGenerator (str "TypescriptVisitor") (str "ts") (str "Typescript"))
             typescript_traversal).
    + simpl. tauto.
    + reflexivity.
    + left. reflexivity.
Defined.

(** The counterexample to C4 as stated.  The XML Schema generator throws
    [null] after its first unit; every step before the generators went
    well.  The catch clause of line 156 then throws at [err.message], the
    loop of lines 311-314 is left, and the turn of the file ends in the
    catch clause of line 343: the archive of the Typescript generator, which
    comes after in the list, is not written, and the index gets no entry. *)
Lemma null_ends_the_turn :
  let result :=
    @publishModel node_semver null_env throwing_null 0 a_model a_text
      a_file (str "/repo/build/a/model.cto") (str "/repo/build/a")
      (str "/a") (str "model") one_container in
  let turn := snd (@processFile node_semver null_env a_file initial_world) in
  CodeGen throwing_null (str "XmlSchemaVisitor") = Some null_traversal
  /\ CodeGen throwing_null (str "TypescriptVisitor") = Some typescript_traversal
  /\ addModelFile throwing_null (manager_at one_container 0)
       (@registration node_semver throwing_null a_model a_text) = None
  /\ fst result = Throw TypeError
  /\ w_index (snd result) = []
  /\ read_disk (w_disk (snd result)) (str "/repo/build/a/model.ts.zip") = None
  /\ read_disk (w_disk (snd result)) (str "/repo/build/a/model.xsd.zip")
     = Some (Zip [MkEntry (str "a.xsd") (str "<a/>" ++ [10])
                    (str "Generated by XmlSchemaVisitor")])
  /\ w_index turn = []
  /\ read_disk (w_disk turn) (str "/repo/build/a/model.ts.zip") = None
  /\ w_log turn
     = [LogError TypeError; LogErrorMessage (str "TypeError");
        LogErrorHandling a_file;
        LogProcessing (str "a.model") (str "3.0.0")].
Proof. repeat split; reflexivity. Qed.

Lemma generate_never_raises_witness :
  fst (generate concerto_3_0 (str "XmlSchemaVisitor") (str "xsd")
         (str "/repo/build") (str "/repo/build/z") (str "model@1.2.3") 0
         one_container) = Ok tt.
Proof.
  refine (proj1 (generate_never_raises concerto_3_0 (str "XmlSchemaVisitor")
                   (str "xsd") (str "/repo/build") (str "/repo/build/z")
                   (str "model@1.2.3") 0 one_container _)).
  intros traversal Ht. exact (sample_generators_throw_errors _ _ _ Ht).
Defined.

(** The counterexample to C7 as stated.  The traversal throws [null]; the
    catch clause of line 156 reads [err.message] of it, which is a
    [TypeError], and [generate] raises that -- with the archive of the unit
    closed before on the disk, and nothing logged. *)
Lemma null_escapes_generate :
  CodeGen throwing_null (str "XmlSchemaVisitor") = Some null_traversal
  /\ generate throwing_null (str "XmlSchemaVisitor") (str "xsd")
       (str "/repo/build") (str "/repo/build/a") (str "model") 0 one_container
     = (Throw TypeError,
        with_writes one_container
          [(str "/repo/build/a/model.xsd.zip",
            Zip [MkEntry (str "a.xsd") (str "<a/>" ++ [10])
                   (str "Generated by XmlSchemaVisitor")])]).
Proof. split; reflexivity. Qed.

(** The counterexample to C3 as stated.  Of the directory [/dev2] no
    segment is a version, and the expression finds [v2] in it: the file is
    classified legacy-scheme and only copied.  [/v1.2.3.4] likewise.  Of
    [/geo/v2/adv1] exactly one segment is a version, and the expression
    finds two occurrences: current-scheme. *)
Lemma segments_are_not_what_is_counted :
  let turn := snd (@processFile node_semver (sample_env []) dev_file
                     initial_world) in
  version_path_segments (str "/dev2") = []
  /\ isLegacyModelVersionScheme (str "/dev2") = true
  /\ version_path_segments (str "/v1.2.3.4") = []
  /\ isLegacyModelVersionScheme (str "/v1.2.3.4") = true
  /\ version_path_segments (str "/geo/v2/adv1") = [str "v2"]
  /\ isLegacyModelVersionScheme (str "/geo/v2/adv1") = false
  /\ version_path_segments (str "/cicero/v2.0") = [str "v2.0"]
  /\ relative_of (sample_env []) dev_file = str "/dev2"
  /\ w_index turn = []
  /\ w_disk turn = [(str "/repo/build/dev2/model.cto", CopyOf dev_file)].
Proof. repeat split; reflexivity. Qed.

Lemma partial_archive_witness :
  let w' :=
    snd (generate concerto_3_0 (str "XmlSchemaVisitor") (str "xsd")
           (str "/repo/build") (str "/repo/build/z") (str "model@1.2.3") 0
           one_container) in
  read_disk (w_disk w') (str "/repo/build/z/model@1.2.3.xsd.zip")
  = Some (Zip [MkEntry (str "a.xsd") (str "<a/>" ++ [10])
                 (str "Generated by XmlSchemaVisitor");
               MkEntry (str "b.xsd") (str "<b/>" ++ [10] ++ str "<c/>" ++ [10])
                 (str "Generated by XmlSchemaVisitor")]).
Proof.
  refine (proj2 (partial_archive_is_persisted concerto_3_0
            (str "XmlSchemaVisitor") (str "xsd") (str "/repo/build")
            (str "/repo/build/z") (str "model@1.2.3") 0 one_container
            failing_traversal (str "a.xsd") (str "b.xsd") [str "<a/>"]
            [str "<b/>"; str "<c/>"]
            [OpenFile (str "c.xsd"); WriteLine 1 (str "<d>")] []
            (Error (str "boom")) eq_refl eq_refl _ _ _ _)).
  - repeat constructor; discriminate.
  - discriminate.
  - discriminate.
  - discriminate.
Defined.

Lemma published_version_witness :
  @deriveModelVersion node_semver z_file = str "1.2.3".
Proof.
  refine (proj2 (@published_version_from_name node_semver
                   (str "/repo/src/z/model") (str "1.2.3.cto") _)
            eq_refl eq_refl).
  intros Hin. simpl in Hin.
  repeat (destruct Hin as [Hin|Hin]; [discriminate|]). destruct Hin.
Defined.

Lemma no_filter_witness :
  let env := sample_env [z_file; a_file] in
  let w1 := snd (@processFiles node_semver env [z_file] initial_world) in
  let turn :=
    try_catch (@handleFile node_semver env a_file) (reportError a_file) w1 in
  fst turn = Ok tt
  /\ @processFiles node_semver env [z_file; a_file] initial_world = turn
  /\ logs (taken_up a_file) w1 (snd turn).
Proof.
  intros env w1 turn. split; [reflexivity|].
  exact (proj2 (@no_filter_processes_every_file node_semver env
                  [z_file; a_file] initial_world eq_refl)
           [z_file] a_file [] eq_refl eq_refl).
Defined.

Lemma final_index_witness :
  List.map entry_namespace
    (w_index
       (snd (@main node_semver unit_order (sample_env [z_file; a_file])
               initial_world)))
  = [str "a.model"; str "z.model"].
Proof.
  destruct (@final_index_is_sorted node_semver unit_order
              (sample_env [z_file; a_file]) [z_file; a_file]
              (snd (@copyAssets (sample_env [z_file; a_file]) initial_world))
              unit_order_consistent)
    as (_ & _ & Hmain & _ & Hscenario).
  rewrite (Hmain initial_world eq_refl eq_refl eq_refl).
  apply (Hscenario
           (MkIndexEntry (str "/z/model@1.2.3.html") z_model (str "1.2.3"))
           (MkIndexEntry (str "/a/model.html") a_model (str "0.1.0"))).
  - reflexivity.
  - reflexivity.
  - reflexivity.
  - left; reflexivity.
Defined.

(** The comment directive of the legacy file, and the binding it gets. *)
Example comment_directive_resolves :
  directive_range legacy_text = Some (str "0.82")
  /\ findCompatibleVersion sample_registry legacy_text
     = Ok (VBinding concerto_0_82).
Proof. split; reflexivity. Qed.

(** A declaration wins over a comment, wherever the two stand. *)
Example declaration_before_comment :
  directive_range
    (unlines [str "// requires: concerto-core:0.82"; str "namespace x"]
     ++ declaration_line (str "^3.0.0"))
  = Some (str "^3.0.0").
Proof.
  apply (declaration_line_directive
           [str "// requires: concerto-core:0.82"; str "namespace x"]
           (str "^3.0.0") []).
  - repeat constructor.
  - repeat constructor.
  - exact I.
Qed.

(** Occurrences are found wherever the pattern stands, each as long as it
    can be. *)
Example version_occurrences_of_paths :
  version_occurrences (str "/cicero/v2.0/contract") = [str "v2.0"]
  /\ version_occurrences (str "/a/v1.2.3.4/v7") = [str "v1.2.3"; str "v7"]
  /\ version_occurrences (str "/finance/loans") = []
  /\ isLegacyModelVersionScheme (str "/cicero/v2.0/contract") = true
  /\ isLegacyModelVersionScheme (str "/a/v1.2.3.4/v7") = false
  /\ isLegacyModelVersionScheme (str "/finance/loans") = false.
Proof. repeat split; reflexivity. Qed.

(** A whole run over the four sample files: the index is sorted, the legacy
    directory [v2] is copied only, and the failing generator leaves its
    two-unit archive behind for every file published. *)
Example sample_run :
  let w :=
    snd (@main node_semver unit_order
           (sample_env [z_file; a_file; old_file; legacy_file])
           initial_world) in
  List.map entry_namespace (w_index w)
  = [str "a.model"; str "org.legacy"; str "z.model"]
  /\ List.map modelVersion (w_index w)
     = [str "0.1.0"; str "0.1.0"; str "1.2.3"]
  /\ read_disk (w_disk w) (str "/repo/build/cicero/v2/old.cto")
     = Some (CopyOf old_file)
  /\ read_disk (w_disk w) (str "/repo/build/cicero/v2/old.xsd.zip") = None
  /\ option_map
       (fun d => match d with
                 | Zip l => List.map entryName l
                 | _ => []
                 end)
       (read_disk (w_disk w) (str "/repo/build/a/model.xsd.zip"))
     = Some [str "a.xsd"; str "b.xsd"].
Proof. repeat split; reflexivity. Qed.

